(** * LCOFI frequent-itemset mining: a shallow embedding and its properties

    The development follows the notebooks under
    [LCOFI_Logic_Circuit_Optimization_Frequent_Itemset/]:

    - [generate_candidates], [count_support], [lcofi] as they are written
      in [LOCFI_connect-game.ipynb] and [LOCFI_Pak_accidents.ipynb]
      (where [count_support] receives [min_support] as an argument);
    - module [Example] holds the variant of [LCOFI_example.ipynb], whose
      [count_support] reads the notebook-level [min_support], together
      with the sample transactions of that notebook;
    - [generate_association_rules] up to its call of the library function
      [association_rules], and the two preprocessing functions from the
      loaded data frame on.

    Python values are modelled as follows.  An item is a [string]; a
    transaction ([set]) and an itemset ([frozenset]) are [gset string]; a
    set of candidates is a [gset (gset string)]; a level ([dict] from
    itemset to count) is a [gmap (gset string) nat].  Python integers that
    only count upwards from zero are [nat].  A [float] is a rational
    number ([Qc]; the threshold [0.6] is [3/5]) and [/] on counts is the
    exact quotient: rounding is not modelled.  Exceptions are the left
    summand of [M]. *)

From Stdlib Require Import QArith Qcanon Ascii.
From stdpp Require Import numbers pretty strings gmap fin_maps list.
Set Warnings "-clear-no-such-hyp".
Close Scope Q_scope.
Close Scope Qc_scope.
Open Scope string_scope.
Open Scope list_scope.
Open Scope nat_scope.

(** ** Exceptions *)

Inductive exn : Set :=
  | KeyError
  | ZeroDivisionError.

#[global] Instance exn_eq_dec : EqDecision exn.
Proof. solve_decision. Defined.

Definition M (A : Type) : Type := exn + A.

Definition raise {A} (e : exn) : M A := inl e.

#[global] Instance M_ret : MRet M := λ A a, inr a.

#[global] Instance M_bind : MBind M := λ A B f m,
  match m with
  | inl e => inl e
  | inr a => f a
  end.

(** A [for] loop whose body may raise: the state is threaded from left to
    right and the first exception stops the loop. *)
Fixpoint for_each {A S} (l : list A) (body : S → A → M S) (s : S) : M S :=
  match l with
  | [] => mret s
  | x :: l' => s' ← body s x; for_each l' body s'
  end.

(** ** Python built-ins used by the notebooks *)

(** [itertools.combinations(pool, r)]: the [r]-length subsequences of
    [pool], in lexicographic order of positions. *)
Fixpoint combinations {A} (pool : list A) (r : nat) : list (list A) :=
  match r, pool with
  | 0, _ => [[]]
  | S _, [] => []
  | S r', x :: pool' =>
      ((cons x <$> combinations pool' r') ++ combinations pool' r)%list
  end.

(** Iterating a [dict] yields its keys. *)
Definition dict_keys {V} (d : gmap (gset string) V) : list (gset string) :=
  (map_to_list d).*1.

(** [itertools.chain]: the iterables one after the other. *)
Definition chain {A} (iterables : list (list A)) : list A := concat iterables.

(** [a / b] on Python integers (true division). *)
Definition true_div (a b : nat) : M Qc :=
  if decide (b = 0) then raise ZeroDivisionError
  else mret (Qc_of_Z (Z.of_nat a) / Qc_of_Z (Z.of_nat b))%Qc.

(** [s.startswith(p)]. *)
Definition startswith (s p : string) : bool := String.prefix p s.

(** ** Candidate generation *)

(** The set built from [itertools.chain] over the keys of
    [frequent_itemsets]: the items of the previous level. *)
Definition item_universe (frequent_itemsets : gmap (gset string) nat)
  : gset string :=
  list_to_set (chain (elements <$> dict_keys frequent_itemsets)).

Definition generate_candidates (frequent_itemsets : gmap (gset string) nat)
    (size : nat) : gset (gset string) :=
  list_to_set
    ((λ x, list_to_set x) <$>
       combinations (elements (item_universe frequent_itemsets)) size).

(** ** Support counting *)

(** [support_counts[item] += 1]. *)
Definition increment (support_counts : gmap (gset string) nat)
    (item : gset string) : M (gmap (gset string) nat) :=
  match support_counts !! item with
  | Some c => mret (<[item := c + 1]> support_counts)
  | None => raise KeyError
  end.

(** The two nested loops of [count_support]: the dictionary
    [support_counts] after the scan of all transactions. *)
Definition accumulate_counts (itemsets : gset (gset string))
    (transactions : list (gset string)) : M (gmap (gset string) nat) :=
  let support_counts := gset_to_gmap 0 itemsets in
  for_each transactions (λ support_counts transaction,
    for_each (elements itemsets) (λ support_counts item,
      if decide (item ⊆ transaction)
      then increment support_counts item
      else mret support_counts) support_counts) support_counts.

(** The closing dictionary comprehension of [count_support]. *)
Definition retain (support_counts : gmap (gset string) nat)
    (transactions : list (gset string)) (min_support : Qc)
  : M (gmap (gset string) nat) :=
  for_each (map_to_list support_counts) (λ result '(item, count),
    q ← true_div count (length transactions);
    mret (if decide (min_support ≤ q)%Qc
         then <[item := count]> result else result)) ∅.

Definition count_support (itemsets : gset (gset string))
    (transactions : list (gset string)) (min_support : Qc)
  : M (gmap (gset string) nat) :=
  support_counts ← accumulate_counts itemsets transactions;
  retain support_counts transactions min_support.

(** ** The incidence graph

    [networkx.Graph] restricted to what [lcofi] uses: the adjacency
    structure [G._adj], as a map from a node to the set of its
    neighbours.  Edge attributes are not used by the notebooks. *)

Record Graph : Type := { adj : gmap string (gset string) }.

(** [nx.Graph()]. *)
Definition empty_graph : Graph := {| adj := ∅ |}.

Definition neighbours (a : gmap string (gset string)) (u : string)
  : gset string :=
  default ∅ (a !! u).

(** [G.add_edge(u, v)]: both end points become nodes when they are not
    yet, and each is recorded as a neighbour of the other. *)
Definition add_edge (u v : string) (G : Graph) : Graph :=
  let a := <[u := {[v]} ∪ neighbours (adj G) u]> (adj G) in
  {| adj := <[v := {[u]} ∪ neighbours a v]> a |}.

(** [for node in G]. *)
Definition nodes (G : Graph) : list string := (map_to_list (adj G)).*1.

(** [G.degree[node]], for a node of [G]: the number of neighbours, a
    self-loop counting twice.  For a label that is not a node the library
    raises [KeyError]; [lcofi] asks for the degree of nodes only, and the
    value given here to other labels stands for nothing. *)
Definition degree (G : Graph) (node : string) : nat :=
  let nbrs := neighbours (adj G) node in
  size nbrs + (if decide (node ∈ nbrs) then 1 else 0).

(** The label of the node of transaction [i]: the f-string
    [Transaction_{i}]. *)
Definition transaction_node (i : nat) : string := "Transaction_" +:+ pretty i.

(** Step 3.1 of [lcofi]: one edge per (transaction, item) membership. *)
Definition build_graph (transactions : list (gset string)) : Graph :=
  foldl (λ G '(i, transaction),
           foldl (λ G item, add_edge (transaction_node i) item G)
                 G (elements transaction))
        empty_graph (imap pair transactions).

(** Step 3.2 of [lcofi]: the singleton itemsets the search starts from. *)
Definition single_items (G : Graph) : gset (gset string) :=
  list_to_set
    ((λ node, {[node]}) <$>
       filter (λ node, 0 < degree G node
                       ∧ startswith node "Transaction" = false)
              (nodes G)).

(** ** The level-wise miner *)

Section miner.
(** The support counter the miner calls, with the threshold it uses. *)
Variable count : gset (gset string) → list (gset string)
                 → M (gmap (gset string) nat).
Variable transactions : list (gset string).

(** The [while frequent_itemsets:] loop.  [None] stands for a loop that
    has not finished within [fuel] iterations. *)
Fixpoint lcofi_loop (fuel : nat) (frequent_itemsets : gmap (gset string) nat)
    (all_frequent_itemsets : list (gmap (gset string) nat)) (k : nat)
  : option (M (list (gmap (gset string) nat))) :=
  if decide (frequent_itemsets = ∅) then Some (mret all_frequent_itemsets)
  else
    match fuel with
    | 0 => None
    | S fuel' =>
        let candidates := generate_candidates frequent_itemsets k in
        match count candidates transactions with
        | inl e => Some (raise e)
        | inr frequent_itemsets' =>
            let all_frequent_itemsets' :=
              if decide (frequent_itemsets' = ∅) then all_frequent_itemsets
              else (all_frequent_itemsets ++ [frequent_itemsets'])%list in
            lcofi_loop fuel' frequent_itemsets' all_frequent_itemsets'
                       (k + 1)
        end
    end.

Definition lcofi_with (fuel : nat)
  : option (M (list (gmap (gset string) nat))) :=
  let G := build_graph transactions in
  match count (single_items G) transactions with
  | inl e => Some (raise e)
  | inr frequent_itemsets =>
      lcofi_loop fuel frequent_itemsets [frequent_itemsets] 2
  end.
End miner.

(** [lcofi(transactions, min_support)] of [LOCFI_connect-game.ipynb] and
    [LOCFI_Pak_accidents.ipynb]. *)
Definition lcofi (fuel : nat) (transactions : list (gset string))
    (min_support : Qc) : option (M (list (gmap (gset string) nat))) :=
  lcofi_with (λ itemsets transactions,
                count_support itemsets transactions min_support)
             transactions fuel.

(** [lcofi] returns [levels]: some number of iterations is enough for the
    loop to finish, with that result. *)
Definition lcofi_returns (transactions : list (gset string))
    (min_support : Qc) (levels : list (gmap (gset string) nat)) : Prop :=
  ∃ fuel, lcofi fuel transactions min_support = Some (inr levels).

(** ** The example notebook *)

Module Example.
(** The sample data set of [LCOFI_example.ipynb]. *)
Definition transactions : list (gset string) :=
  [ {["A"; "B"; "C"]};
    {["A"; "C"]};
    {["B"; "C"; "D"]};
    {["A"; "C"; "D"]};
    {["B"; "C"]} ].

(** [min_support = 0.6], a name of the notebook's top level. *)
Definition min_support : Qc := Q2Qc (3 # 5).

(** In this notebook [count_support] has two parameters and compares
    with the top-level [min_support]. *)
Definition count_support (itemsets : gset (gset string))
    (transactions : list (gset string)) : M (gmap (gset string) nat) :=
  support_counts ← accumulate_counts itemsets transactions;
  retain support_counts transactions min_support.

(** [lcofi] takes a [min_support] parameter here too, and does not use
    it. *)
Definition lcofi (fuel : nat) (transactions : list (gset string))
    (min_support : Qc) : option (M (list (gmap (gset string) nat))) :=
  lcofi_with count_support transactions fuel.
End Example.

(** ** Rule derivation *)

(** A row of the table of rules, with the metrics that are defined
    whenever the antecedent and the consequent have a support other than
    zero.  The other columns (conviction, Zhang's metric, Jaccard,
    certainty, Kulczynski) take no part in the selection of the rules. *)
Record Rule : Type := {
  antecedents : gset string;
  consequents : gset string;
  support : Qc;
  confidence : Qc;
  lift : Qc;
  leverage : Qc }.

#[global] Instance Rule_eq_dec : EqDecision Rule.
Proof. solve_decision. Defined.

(** The non-empty strict subsets of [F]. *)
Definition proper_subsets (F : gset string) : list (gset string) :=
  r ← seq 1 (size F - 1);
  (λ x, list_to_set x) <$> combinations (elements F) r.

(** The rule [A → F ∖ A], when the supports of both sides are known and
    are not zero. *)
Definition score_rule (supp : gmap (gset string) Qc) (F A : gset string)
    (sF : Qc) : option Rule :=
  sA ← supp !! A;
  sC ← supp !! (F ∖ A);
  if decide (sA = 0 ∨ sC = 0)%Qc then None
  else Some {| antecedents := A;
               consequents := F ∖ A;
               support := sF;
               confidence := (sF / sA)%Qc;
               lift := (sF / sA / sC)%Qc;
               leverage := (sF - sA * sC)%Qc |}.

(** Modelled from the spec: [association_rules] of the mlxtend library,
    which the notebooks import and which is not among the sources, called
    with [metric="confidence"].  Steps 2 to 5 of the rule deriver: every
    itemset of at least two items is split in every way into a non-empty
    antecedent and a non-empty consequent; a split is skipped when the
    support of a side is not in the table or is zero; the rules of
    confidence at least [min_threshold] are kept. *)
Definition association_rules (df : list (gset string * Qc))
    (min_threshold : Qc) : list Rule :=
  let supp : gmap (gset string) Qc := list_to_map df in
  '(F, sF) ← df;
  if decide (2 ≤ size F) then
    A ← proper_subsets F;
    match score_rule supp F A sF with
    | Some r => if decide (min_threshold ≤ confidence r)%Qc then [r] else []
    | None => []
    end
  else [].

(** The loop [flat_itemsets.update(level)] over the levels: the entries of
    a later level replace those of an earlier one. *)
Definition flatten (frequent_itemsets : list (gmap (gset string) nat))
  : gmap (gset string) nat :=
  foldl (λ flat_itemsets level, level ∪ flat_itemsets) ∅ frequent_itemsets.

(** [generate_association_rules] of [LOCFI_connect-game.ipynb] and
    [LOCFI_Pak_accidents.ipynb]; the data frame is the list of its rows. *)
Definition generate_association_rules
    (frequent_itemsets : list (gmap (gset string) nat))
    (transactions : list (gset string)) (min_confidence : Qc)
  : M (list Rule) :=
  let flat_itemsets := flatten frequent_itemsets in
  let num_transactions := length transactions in
  supports ← mapM (λ support, true_div support num_transactions)
                  (map_to_list flat_itemsets).*2;
  let frequent_itemsets_df := zip (map_to_list flat_itemsets).*1 supports in
  mret (association_rules frequent_itemsets_df min_confidence).

(** The levels mined from the sample data set, and the rules derived from
    them with [min_confidence = 0.6]. *)
Definition example_levels : list (gmap (gset string) nat) :=
  [ {[ {["C"]} := 5; {["A"]} := 3; {["B"]} := 3 ]};
    {[ {["C"; "A"]} := 3; {["C"; "B"]} := 3 ]} ].

Definition example_rule (A C : gset string) (conf : Qc) : Rule :=
  {| antecedents := A; consequents := C; support := Q2Qc (3 # 5);
     confidence := conf; lift := 1%Qc; leverage := 0%Qc |}.

Definition example_rules : list Rule :=
  [ example_rule {["C"]} {["B"]} (Q2Qc (3 # 5));
    example_rule {["B"]} {["C"]} 1%Qc;
    example_rule {["C"]} {["A"]} (Q2Qc (3 # 5));
    example_rule {["A"]} {["C"]} 1%Qc ].

(** ** Preprocessing

    [preprocess_accident_data] and [preprocess_connect_game], from the
    data frame on: reading the CSV file is left out.  A data frame is
    given by its column labels and by the rows that [data.iterrows()]
    yields, each row being the labels of [row.index] with the cell under
    each; a null cell is [None], and [format] is the rendering of a cell by
    the f-string.  Column labels are taken to be distinct, as [read_csv]
    makes them. *)

Section preprocessing.
Context {value : Type}.
Variable format : value → string.

Record DataFrame : Type := {
  columns : list string;
  iterrows : list (list (string * option value)) }.

(** [data.drop(columns=labels)]. *)
Definition drop (labels : list string) (data : DataFrame) : DataFrame :=
  {| columns := filter (λ col, col ∉ labels) (columns data);
     iterrows := filter (λ cell, cell.1 ∉ labels) <$> iterrows data |}.

(** The f-string that joins the column label and the cell. *)
Definition item_label (col : string) (v : value) : string :=
  col +:+ "_" +:+ format v.

(** The inner loop: one item per cell that is not null. *)
Definition row_to_transaction (row : list (string * option value))
  : gset string :=
  foldl (λ transaction '(col, cell),
           match cell with
           | Some v => {[item_label col v]} ∪ transaction
           | None => transaction
           end) ∅ row.

Definition preprocess_accident_data (data : DataFrame) : list (gset string) :=
  row_to_transaction <$> iterrows data.

Definition preprocess_connect_game (data : DataFrame) : list (gset string) :=
  let data := if decide ("winner" ∈ columns data)
              then drop ["winner"] data else data in
  row_to_transaction <$> iterrows data.

(** Every row carries the column labels of the frame. *)
Definition well_formed (data : DataFrame) : Prop :=
  Forall (λ row, row.*1 = columns data) (iterrows data).
End preprocessing.

Arguments DataFrame : clear implicits.

(** ** Notions the properties are stated with *)

(** The number of transactions of which [S] is a subset. *)
Definition containment_count (S : gset string)
    (transactions : list (gset string)) : nat :=
  length (filter (λ transaction, S ⊆ transaction) transactions).

(** [count / len(transactions)] as a rational number. *)
Definition relative_support (count : nat) (transactions : list (gset string))
  : Qc :=
  (Qc_of_Z (Z.of_nat count) / Qc_of_Z (Z.of_nat (length transactions)))%Qc.

(** Every node of the graph has a neighbour. *)
Definition no_isolated_node (G : Graph) : Prop :=
  ∀ n nbrs, adj G !! n = Some nbrs → nbrs ≠ ∅.

(** Every itemset of the level has [k] items, is mapped to its containment
    count, and meets the threshold. *)
Definition level_sound (transactions : list (gset string)) (min_support : Qc)
    (k : nat) (level : gmap (gset string) nat) : Prop :=
  ∀ F c, level !! F = Some c →
         size F = k ∧ c = containment_count F transactions
         ∧ (min_support ≤ relative_support c transactions)%Qc.

Definition levels_sound (transactions : list (gset string)) (min_support : Qc)
    (levels : list (gmap (gset string) nat)) : Prop :=
  ∀ i level, levels !! i = Some level →
             level_sound transactions min_support (S i) level.

(** Every item of an itemset of [level] occurs in an itemset of [prev]. *)
Definition drawn_from (prev level : gmap (gset string) nat) : Prop :=
  ∀ F x, is_Some (level !! F) → x ∈ F → ∃ F', is_Some (prev !! F') ∧ x ∈ F'.

Definition levels_chained (levels : list (gmap (gset string) nat)) : Prop :=
  ∀ i prev level, levels !! i = Some prev → levels !! (S i) = Some level →
                  drawn_from prev level.

(** The seed of the search is the set of the singletons of all items that
    occur in a transaction. *)
Definition seed_is_distinct_items (transactions : list (gset string)) : Prop :=
  ∀ S : gset string,
    S ∈ single_items (build_graph transactions)
    ↔ ∃ x, S = {[x]} ∧ ∃ t, t ∈ transactions ∧ x ∈ t.

(** The outcome is an error, and not the arithmetic fault of the
    interpreter. *)
Definition reports_empty_transaction_set {A} (r : option (M A)) : Prop :=
  ∃ e, r = Some (inl e) ∧ e ≠ ZeroDivisionError.

(** The first level is the support count of the seed. *)
Definition levels_start (transactions : list (gset string)) (min_support : Qc)
    (levels : list (gmap (gset string) nat)) : Prop :=
  ∃ first,
    levels !! 0 = Some first
    ∧ count_support (single_items (build_graph transactions)) transactions
                    min_support = inr first.

(** Every further level is not empty and is the support count of the
    candidates generated from the level before it. *)
Definition levels_step (transactions : list (gset string)) (min_support : Qc)
    (levels : list (gmap (gset string) nat)) : Prop :=
  ∀ i prev level,
    levels !! i = Some prev → levels !! (S i) = Some level →
    level ≠ ∅
    ∧ count_support (generate_candidates prev (i + 2)) transactions
                    min_support = inr level.

(** After a last level that is not empty, no candidate of the next size is
    frequent. *)
Definition levels_stop (transactions : list (gset string)) (min_support : Qc)
    (levels : list (gmap (gset string) nat)) : Prop :=
  ∀ final,
    last levels = Some final → final ≠ ∅ →
    count_support (generate_candidates final (length levels + 1)) transactions
                  min_support = inr ∅.

(** The number of ways to choose [k] elements among [n], by Pascal's
    rule. *)
Fixpoint choose (n k : nat) : nat :=
  match n, k with
  | _, 0 => 1
  | 0, S _ => 0
  | S n', S k' => choose n' k' + choose n' k
  end.

(** * Properties *)

(** ** [itertools.combinations] *)

Section combinations_facts.
Context {A : Type}.
Implicit Types (l pool : list A) (r : nat).

Lemma elem_of_combinations pool r l :
  l ∈ combinations pool r ↔ l `sublist_of` pool ∧ length l = r.
Proof.
  revert r l. induction pool as [|x pool IH]; intros [|r] l; simpl.
  - rewrite list_elem_of_singleton. split.
    + intros ->. split; [constructor | done].
    + intros [_ Hl]. by apply nil_length_inv.
  - rewrite elem_of_nil. split; [done|].
    intros [Hs Hl]. apply sublist_nil_r in Hs. by subst.
  - rewrite list_elem_of_singleton. split.
    + intros ->. split; [apply sublist_nil_l | done].
    + intros [_ Hl]. by apply nil_length_inv.
  - rewrite elem_of_app, list_elem_of_fmap. split.
    + intros [(l' & -> & Hl') | Hl].
      * apply IH in Hl' as [Hs Hlen].
        split; [by apply sublist_skip | simpl; lia].
      * apply IH in Hl as [Hs Hlen]. split; [by apply sublist_cons | done].
    + intros [Hs Hlen]. apply sublist_cons_r in Hs as [Hs | (l' & -> & Hs)].
      * right. apply IH. done.
      * left. exists l'. split; [done|]. apply IH.
        simpl in Hlen. split; [done | lia].
Qed.

Lemma elem_of_chain (ls : list (list A)) (x : A) :
  x ∈ chain ls ↔ ∃ l, l ∈ ls ∧ x ∈ l.
Proof.
  unfold chain. induction ls as [|l0 ls IH]; simpl.
  - rewrite elem_of_nil. split; [done|]. intros (l & Hl & _).
    by apply elem_of_nil in Hl.
  - rewrite elem_of_app, IH. split.
    + intros [Hx | (l & Hl & Hx)].
      * exists l0. split; [left | done].
      * exists l. split; [by right | done].
    + intros (l & Hl & Hx). apply elem_of_cons in Hl as [-> | Hl].
      * by left.
      * right. by exists l.
Qed.
End combinations_facts.

(** ** Candidate generation *)

Lemma elem_of_dict_keys {V} (d : gmap (gset string) V) (F : gset string) :
  F ∈ dict_keys d ↔ is_Some (d !! F).
Proof.
  unfold dict_keys. rewrite list_elem_of_fmap. split.
  - intros ([F' c] & -> & Hin). apply elem_of_map_to_list in Hin. by exists c.
  - intros [c Hc]. exists (F, c). split; [done|]. by apply elem_of_map_to_list.
Qed.

Lemma elem_of_item_universe (P : gmap (gset string) nat) (x : string) :
  x ∈ item_universe P ↔ ∃ F, is_Some (P !! F) ∧ x ∈ F.
Proof.
  unfold item_universe. rewrite elem_of_list_to_set, elem_of_chain. split.
  - intros (l & Hl & Hx). apply list_elem_of_fmap in Hl as (F & -> & HF).
    exists F. split; [by apply elem_of_dict_keys | by apply elem_of_elements].
  - intros (F & HF & Hx). exists (elements F). split.
    + apply list_elem_of_fmap. exists F. split; [done|].
      by apply elem_of_dict_keys.
    + by apply elem_of_elements.
Qed.

(** The combinations of [k] elements of a set, as sets, are its subsets of
    size [k]. *)
Lemma elem_of_subsets_of_size (U : gset string) (k : nat) (S : gset string) :
  S ∈ (λ x, list_to_set x) <$> combinations (elements U) k
  ↔ S ⊆ U ∧ size S = k.
Proof.
  rewrite list_elem_of_fmap. split.
  - intros (l & -> & Hl). apply elem_of_combinations in Hl as [Hs Hlen].
    split.
    + intros x Hx. apply elem_of_list_to_set in Hx.
      apply (sublist_subseteq _ _ Hs) in Hx. by apply elem_of_elements in Hx.
    + rewrite size_list_to_set; [done|].
      eapply sublist_NoDup; [apply (NoDup_elements U) | done].
  - intros [Hsub Hsize].
    set (l := filter (λ x, x ∈ S) (elements U)).
    assert (HS : list_to_set l = S).
    { apply set_eq. intros x. unfold l.
      rewrite elem_of_list_to_set, list_elem_of_filter, elem_of_elements.
      split; [by intros [? _] | intros ?; split; [done | by apply Hsub]]. }
    assert (Hnd : NoDup l).
    { eapply sublist_NoDup; [apply (NoDup_elements U)|].
      apply sublist_filter. }
    exists l. split; [done|]. apply elem_of_combinations. split.
    + apply sublist_filter.
    + rewrite <- (size_list_to_set (C:=gset string) l Hnd). by rewrite HS.
Qed.

(** The candidates of size [k] are the [k]-element subsets of the item
    universe of the previous level. *)
Lemma elem_of_generate_candidates (P : gmap (gset string) nat) (k : nat)
    (S : gset string) :
  S ∈ generate_candidates P k ↔ S ⊆ item_universe P ∧ size S = k.
Proof.
  unfold generate_candidates. rewrite elem_of_list_to_set.
  apply elem_of_subsets_of_size.
Qed.

(** ** Support counting *)

Lemma containment_count_cons (S t : gset string) (T : list (gset string)) :
  containment_count S (t :: T)
  = (if decide (S ⊆ t) then 1 else 0) + containment_count S T.
Proof.
  unfold containment_count. rewrite filter_cons.
  by destruct (decide (S ⊆ t)).
Qed.

Lemma containment_count_mono (S S' : gset string) (T : list (gset string)) :
  S ⊆ S' → containment_count S' T ≤ containment_count S T.
Proof.
  intros Hsub. induction T as [|t T IH]; [done|].
  rewrite !containment_count_cons.
  destruct (decide (S' ⊆ t)) as [H'|H'], (decide (S ⊆ t)) as [H|H];
    try lia.
  exfalso. apply H. by transitivity S'.
Qed.

(** Closes the goals that compare two counts after a case analysis on the
    tests of the loops. *)
Local Ltac count_cases :=
  simpl; repeat case_decide;
  try first [ done | lia | f_equal; lia
            | exfalso; rewrite ?elem_of_cons, ?elem_of_nil in *; naive_solver ].

(** One pass of the inner loop: every candidate contained in the
    transaction gains one, and no key is missed. *)
Lemma scan_transaction (t : gset string) (l : list (gset string))
    (sc : gmap (gset string) nat) :
  NoDup l → (∀ S, S ∈ l → is_Some (sc !! S)) →
  ∃ sc',
    for_each l (λ support_counts item,
                  if decide (item ⊆ t) then increment support_counts item
                  else mret support_counts) sc = inr sc'
    ∧ ∀ S, sc' !! S
           = (λ c, if decide (S ∈ l ∧ S ⊆ t) then c + 1 else c) <$> sc !! S.
Proof.
  intros Hnd. revert sc. induction Hnd as [|x l Hx Hnd IH]; intros sc Hkeys.
  - exists sc. split; [done|]. intros S. destruct (sc !! S) as [c|]; [|done].
    count_cases.
  - simpl. destruct (Hkeys x) as [c Hc]; [by left|].
    destruct (decide (x ⊆ t)) as [Hsub|Hsub].
    + unfold increment. rewrite Hc. simpl.
      destruct (IH (<[x:=c + 1]> sc)) as (sc' & Hrun & Hsc').
      { intros S HS. apply lookup_insert_is_Some'. right.
        apply Hkeys. by right. }
      exists sc'. split; [done|]. intros S. rewrite Hsc'.
      destruct (decide (S = x)) as [->|Hne].
      * rewrite lookup_insert_eq, Hc. count_cases.
      * rewrite lookup_insert_ne by done.
        destruct (sc !! S) as [c'|]; [|done]. count_cases.
    + simpl. destruct (IH sc) as (sc' & Hrun & Hsc').
      { intros S HS. apply Hkeys. by right. }
      exists sc'. split; [done|]. intros S. rewrite Hsc'.
      destruct (sc !! S) as [c'|]; [|done]. count_cases.
Qed.

(** The scan of all transactions, from any dictionary over the candidates. *)
Lemma scan_all (C : gset (gset string)) (T : list (gset string))
    (sc : gmap (gset string) nat) :
  dom sc = C →
  ∃ sc',
    for_each T (λ support_counts transaction,
      for_each (elements C) (λ support_counts item,
        if decide (item ⊆ transaction)
        then increment support_counts item
        else mret support_counts) support_counts) sc = inr sc'
    ∧ ∀ S, sc' !! S = (λ c, c + containment_count S T) <$> sc !! S.
Proof.
  revert sc. induction T as [|t T IH]; intros sc Hdom.
  - exists sc. split; [done|]. intros S. destruct (sc !! S); [|done].
    simpl. f_equal. unfold containment_count. simpl. lia.
  - simpl. destruct (scan_transaction t (elements C) sc) as (sc1 & Hrun & Hsc1).
    { apply NoDup_elements. }
    { intros S HS. apply elem_of_elements in HS. apply elem_of_dom.
      by rewrite Hdom. }
    rewrite Hrun. simpl. destruct (IH sc1) as (sc' & Hrun' & Hsc').
    { apply set_eq. intros S. rewrite <- Hdom, !elem_of_dom, Hsc1.
      by rewrite fmap_is_Some. }
    exists sc'. split; [done|]. intros S. rewrite Hsc', Hsc1.
    destruct (sc !! S) as [c|] eqn:Hc; [|done]. simpl. f_equal.
    rewrite containment_count_cons.
    assert (S ∈ elements C).
    { apply elem_of_elements. rewrite <- Hdom. apply elem_of_dom. eauto. }
    count_cases.
Qed.

(** [support_counts] after the scan: every candidate is mapped to its
    containment count. *)
Lemma accumulate_counts_spec (C : gset (gset string))
    (T : list (gset string)) :
  ∃ sc, accumulate_counts C T = inr sc
        ∧ ∀ S, sc !! S
               = if decide (S ∈ C) then Some (containment_count S T) else None.
Proof.
  unfold accumulate_counts.
  destruct (scan_all C T (gset_to_gmap 0 C)) as (sc & Hrun & Hsc).
  { apply dom_gset_to_gmap. }
  exists sc. split; [done|]. intros S.
  rewrite Hsc, lookup_gset_to_gmap. unfold guard.
  by destruct (decide (S ∈ C)).
Qed.

Lemma true_div_nonempty (count : nat) (T : list (gset string)) :
  T ≠ [] → true_div count (length T) = inr (relative_support count T).
Proof.
  intros HT. unfold true_div. destruct T as [|t T]; [done|].
  by rewrite decide_False.
Qed.

(** The comprehension over a list of (item, count) pairs with distinct
    items, on top of a dictionary [acc]. *)
Lemma retain_from (l : list (gset string * nat)) (T : list (gset string))
    (ms : Qc) (acc : gmap (gset string) nat) :
  T ≠ [] → NoDup l.*1 →
  ∃ acc',
    for_each l (λ result '(item, count),
      q ← true_div count (length T);
      mret (if decide (ms ≤ q)%Qc
            then <[item := count]> result else result)) acc = inr acc'
    ∧ ∀ S, acc' !! S
           = match (list_to_map l : gmap (gset string) nat) !! S with
             | Some c =>
                 if decide (ms ≤ relative_support c T)%Qc then Some c
                 else acc !! S
             | None => acc !! S
             end.
Proof.
  intros HT. revert acc. induction l as [|[F c] l IH]; intros acc Hnd.
  - exists acc. split; [done|]. intros S. simpl. by rewrite lookup_empty.
  - simpl in Hnd. apply NoDup_cons in Hnd as [HF Hnd]. simpl.
    rewrite (true_div_nonempty c T HT). simpl.
    destruct (IH (if decide (ms ≤ relative_support c T)%Qc
                  then <[F:=c]> acc else acc) Hnd) as (acc' & Hrun & Hacc').
    exists acc'. split; [done|]. intros S. rewrite Hacc'.
    destruct (decide (S = F)) as [->|Hne].
    + rewrite lookup_insert_eq.
      rewrite (not_elem_of_list_to_map_1 l F HF).
      destruct (decide (ms ≤ relative_support c T)%Qc); [|done].
      by rewrite lookup_insert_eq.
    + rewrite (lookup_insert_ne _ F S) by done.
      destruct (list_to_map l !! S) as [c'|] eqn:Hc'.
      * destruct (decide (ms ≤ relative_support c' T)%Qc); [done|].
        destruct (decide (ms ≤ relative_support c T)%Qc); [|done].
        by rewrite lookup_insert_ne.
      * destruct (decide (ms ≤ relative_support c T)%Qc); [|done].
        by rewrite lookup_insert_ne.
Qed.

Lemma retain_spec (sc : gmap (gset string) nat) (T : list (gset string))
    (ms : Qc) :
  T ≠ [] →
  ∃ m, retain sc T ms = inr m
       ∧ ∀ S, m !! S
              = match sc !! S with
                | Some c =>
                    if decide (ms ≤ relative_support c T)%Qc then Some c
                    else None
                | None => None
                end.
Proof.
  intros HT. unfold retain.
  destruct (retain_from (map_to_list sc) T ms ∅ HT) as (m & Hrun & Hm).
  { apply NoDup_fst_map_to_list. }
  exists m. split; [done|]. intros S.
  rewrite Hm, list_to_map_to_list, lookup_empty.
  destruct (sc !! S); [|done]. by destruct (decide _).
Qed.

(** With no transaction at all the comprehension divides by zero as soon
    as there is one key. *)
Lemma retain_no_transaction (sc : gmap (gset string) nat) (ms : Qc) :
  retain sc [] ms = if decide (sc = ∅) then inr ∅ else inl ZeroDivisionError.
Proof.
  unfold retain. destruct (decide (sc = ∅)) as [->|Hne].
  - by rewrite map_to_list_empty.
  - destruct (map_to_list sc) as [|[F c] l] eqn:Hl.
    + by apply map_to_list_empty_iff in Hl.
    + done.
Qed.

(** What [count_support] returns on a non-empty list of transactions. *)
Lemma count_support_spec (C : gset (gset string)) (T : list (gset string))
    (ms : Qc) :
  T ≠ [] →
  ∃ m, count_support C T ms = inr m
       ∧ ∀ S, m !! S
              = if decide (S ∈ C
                           ∧ (ms ≤ relative_support (containment_count S T) T)%Qc)
                then Some (containment_count S T) else None.
Proof.
  intros HT. unfold count_support.
  destruct (accumulate_counts_spec C T) as (sc & -> & Hsc).
  destruct (retain_spec sc T ms HT) as (m & Hrun & Hm).
  exists m. split; [done|]. intros S. rewrite Hm, Hsc.
  destruct (decide (S ∈ C)) as [HS|HS].
  - destruct (decide (ms ≤ _)%Qc) as [Hle|Hle];
      destruct (decide (_ ∧ _)) as [Hd|Hd]; try done; exfalso; tauto.
  - destruct (decide (_ ∧ _)) as [Hd|Hd]; [exfalso; tauto | done].
Qed.

Lemma count_support_no_transaction (C : gset (gset string)) (ms : Qc) :
  count_support C [] ms
  = if decide (C = ∅) then inr ∅ else inl ZeroDivisionError.
Proof.
  unfold count_support, accumulate_counts. simpl.
  rewrite retain_no_transaction.
  destruct (decide (C = ∅)) as [->|Hne].
  - by rewrite gset_to_gmap_empty.
  - destruct (decide (gset_to_gmap 0 C = ∅)) as [He|_]; [|done].
    exfalso. apply Hne. apply (f_equal dom) in He.
    by rewrite dom_gset_to_gmap, dom_empty_L in He.
Qed.

(** ** The candidate generator and the support counter, as specified *)

(** C1. For every mapping [P] of previous-level frequent itemsets and
    every [k ≥ 2], [generate_candidates P k] is exactly the set of the
    [k]-element subsets of the universe formed by the items occurring in
    some itemset of [P]; no candidate is left out because one of its
    subsets is not frequent.  In particular the result is empty when [P] is
    empty, and when the universe has fewer than [k] distinct items. *)
Theorem generate_candidates_all_subsets (P : gmap (gset string) nat)
    (k : nat) (Hk : 2 ≤ k) :
  (∀ S : gset string,
     S ∈ generate_candidates P k
     ↔ size S = k ∧ ∀ x, x ∈ S → ∃ F, is_Some (P !! F) ∧ x ∈ F)
  ∧ (P = ∅ → generate_candidates P k = ∅)
  ∧ (∀ U : gset string,
       (∀ x, x ∈ U ↔ ∃ F, is_Some (P !! F) ∧ x ∈ F) →
       size U < k → generate_candidates P k = ∅).
Proof.
  assert (Hmem : ∀ S : gset string,
            S ∈ generate_candidates P k
            ↔ size S = k ∧ ∀ x, x ∈ S → ∃ F, is_Some (P !! F) ∧ x ∈ F).
  { intros S. rewrite elem_of_generate_candidates. split.
    - intros [Hsub Hsize]. split; [done|]. intros x Hx.
      apply elem_of_item_universe. by apply Hsub.
    - intros [Hsize Hsub]. split; [|done]. intros x Hx.
      apply elem_of_item_universe. by apply Hsub. }
  split; [exact Hmem|]. split.
  - intros ->. apply set_eq. intros S. rewrite Hmem. split.
    + intros [Hsize Hsub]. destruct (set_choose_L S) as [x Hx].
      { intros ->. rewrite size_empty in Hsize. lia. }
      destruct (Hsub x Hx) as (F & [c Hc] & _).
      by rewrite lookup_empty in Hc.
    + intros HS. by apply elem_of_empty in HS.
  - intros U HU Hlt. apply set_eq. intros S. rewrite Hmem. split.
    + intros [Hsize Hsub]. exfalso.
      assert (S ⊆ U) as Hle%subseteq_size; [|lia].
      intros x Hx. apply HU. by apply Hsub.
    + intros HS. by apply elem_of_empty in HS.
Qed.

Lemma generate_candidates_all_subsets_witness :
  2 ≤ 2
  ∧ ((∀ S : gset string,
        S ∈ generate_candidates {[ {["A"]} := 3; {["B"]} := 3 ]} 2
        ↔ size S = 2
          ∧ ∀ x, x ∈ S →
              ∃ F, is_Some (({[ {["A"]} := 3; {["B"]} := 3 ]}
                             : gmap (gset string) nat) !! F) ∧ x ∈ F)
     ∧ (({[ {["A"]} := 3; {["B"]} := 3 ]} : gmap (gset string) nat) = ∅ →
        generate_candidates {[ {["A"]} := 3; {["B"]} := 3 ]} 2 = ∅)
     ∧ (∀ U : gset string,
          (∀ x, x ∈ U
                ↔ ∃ F, is_Some (({[ {["A"]} := 3; {["B"]} := 3 ]}
                                 : gmap (gset string) nat) !! F) ∧ x ∈ F) →
          size U < 2 →
          generate_candidates {[ {["A"]} := 3; {["B"]} := 3 ]} 2 = ∅)).
Proof.
  split; [lia|].
  apply (generate_candidates_all_subsets {[ {["A"]} := 3; {["B"]} := 3 ]} 2).
  lia.
Defined.

(** C2. For every non-empty transaction list [T] with [N = |T|] and every
    candidate set [C], [count_support C T min_support] returns a mapping
    whose keys are exactly the candidates [S] of [C] with
    [containment_count S T / N ≥ min_support], each mapped to exactly that
    containment count. *)
Theorem count_support_retains_frequent (C : gset (gset string))
    (T : list (gset string)) (min_support : Qc) (HT : T ≠ []) :
  ∃ m, count_support C T min_support = inr m
       ∧ ∀ S : gset string,
           (is_Some (m !! S)
            ↔ S ∈ C
              ∧ (min_support
                 ≤ relative_support (containment_count S T) T)%Qc)
           ∧ (∀ c, m !! S = Some c → c = containment_count S T).
Proof.
  destruct (count_support_spec C T min_support HT) as (m & Hrun & Hm).
  exists m. split; [done|]. intros S. rewrite Hm.
  destruct (decide (_ ∧ _)) as [Hd|Hd]; split.
  - split; [done | by eexists].
  - by intros c [= <-].
  - split; [by intros [c Hc] | done].
  - by intros c Hc.
Qed.

Lemma count_support_retains_frequent_witness :
  Example.transactions ≠ []
  ∧ ∃ m, count_support {[ {["A"]}; {["D"]} ]} Example.transactions
                       Example.min_support = inr m
         ∧ ∀ S : gset string,
             (is_Some (m !! S)
              ↔ S ∈ ({[ {["A"]}; {["D"]} ]} : gset (gset string))
                ∧ (Example.min_support
                   ≤ relative_support
                       (containment_count S Example.transactions)
                       Example.transactions)%Qc)
             ∧ (∀ c, m !! S = Some c
                     → c = containment_count S Example.transactions).
Proof.
  split; [discriminate|].
  apply (count_support_retains_frequent
           {[ {["A"]}; {["D"]} ]} Example.transactions Example.min_support).
  discriminate.
Defined.

(** C10. Support counting is antitone with respect to set inclusion: for
    two candidates [S ⊆ S'] passed to [count_support], the count
    accumulated for [S'] is at most the count accumulated for [S]. *)
Theorem support_count_antitone (C : gset (gset string))
    (T : list (gset string)) (S S' : gset string)
    (HS : S ∈ C) (HS' : S' ∈ C) (Hsub : S ⊆ S') :
  ∃ sc c c', accumulate_counts C T = inr sc
             ∧ sc !! S = Some c ∧ sc !! S' = Some c' ∧ c' ≤ c.
Proof.
  destruct (accumulate_counts_spec C T) as (sc & Hrun & Hsc).
  exists sc, (containment_count S T), (containment_count S' T).
  split; [done|]. rewrite !Hsc, !decide_True by done.
  split; [done|]. split; [done|]. by apply containment_count_mono.
Qed.

Lemma support_count_antitone_witness :
  ({["A"]} : gset string) ∈ ({[ {["A"]}; {["A"; "C"]} ]} : gset (gset string))
  ∧ ({["A"; "C"]} : gset string)
      ∈ ({[ {["A"]}; {["A"; "C"]} ]} : gset (gset string))
  ∧ ({["A"]} : gset string) ⊆ {["A"; "C"]}
  ∧ ∃ sc c c',
      accumulate_counts {[ {["A"]}; {["A"; "C"]} ]} Example.transactions
      = inr sc
      ∧ sc !! ({["A"]} : gset string) = Some c
      ∧ sc !! ({["A"; "C"]} : gset string) = Some c' ∧ c' ≤ c.
Proof.
  assert (H1 : ({["A"]} : gset string)
               ∈ ({[ {["A"]}; {["A"; "C"]} ]} : gset (gset string))).
  { apply elem_of_union_l, elem_of_singleton. reflexivity. }
  assert (H2 : ({["A"; "C"]} : gset string)
               ∈ ({[ {["A"]}; {["A"; "C"]} ]} : gset (gset string))).
  { apply elem_of_union_r, elem_of_singleton. reflexivity. }
  assert (H3 : ({["A"]} : gset string) ⊆ {["A"; "C"]}).
  { apply union_subseteq_l. }
  split; [exact H1|]. split; [exact H2|]. split; [exact H3|].
  exact (support_count_antitone _ Example.transactions _ _ H1 H2 H3).
Defined.

(** ** The incidence graph *)

Lemma dom_add_edge (u v : string) (G : Graph) :
  dom (adj (add_edge u v G)) = {[u]} ∪ {[v]} ∪ dom (adj G).
Proof.
  unfold add_edge. simpl. rewrite !dom_insert_L. set_solver.
Qed.

Lemma add_edge_no_isolated_node (u v : string) (G : Graph) :
  no_isolated_node G → no_isolated_node (add_edge u v G).
Proof.
  intros HG n nbrs. unfold add_edge. simpl.
  destruct (decide (v = n)) as [->|Hv].
  - rewrite lookup_insert_eq. intros [= <-]. set_solver.
  - rewrite lookup_insert_ne by done.
    destruct (decide (u = n)) as [->|Hu].
    + rewrite lookup_insert_eq. intros [= <-]. set_solver.
    + rewrite lookup_insert_ne by done. apply HG.
Qed.

Lemma add_items_no_isolated_node (tn : string) (items : list string)
    (G : Graph) :
  no_isolated_node G →
  no_isolated_node (foldl (λ G item, add_edge tn item G) G items).
Proof.
  revert G. induction items as [|x items IH]; intros G HG; [done|].
  simpl. apply IH. by apply add_edge_no_isolated_node.
Qed.

Lemma elem_of_dom_add_items (tn : string) (items : list string) (G : Graph)
    (n : string) :
  n ∈ dom (adj (foldl (λ G item, add_edge tn item G) G items))
  ↔ n ∈ dom (adj G) ∨ n ∈ items ∨ (n = tn ∧ items ≠ []).
Proof.
  revert G. induction items as [|x items IH]; intros G.
  - simpl. rewrite elem_of_nil. naive_solver.
  - simpl. rewrite IH, dom_add_edge, elem_of_cons.
    rewrite !elem_of_union, !elem_of_singleton.
    destruct items; naive_solver.
Qed.

Lemma build_from_no_isolated_node (l : list (nat * gset string)) (G : Graph) :
  no_isolated_node G →
  no_isolated_node
    (foldl (λ G '(i, transaction),
              foldl (λ G item, add_edge (transaction_node i) item G)
                    G (elements transaction)) G l).
Proof.
  revert G. induction l as [|[i t] l IH]; intros G HG; [done|].
  simpl. apply IH. by apply add_items_no_isolated_node.
Qed.

Lemma elem_of_dom_build_from (l : list (nat * gset string)) (G : Graph)
    (n : string) :
  n ∈ dom (adj (foldl (λ G '(i, transaction),
                         foldl (λ G item, add_edge (transaction_node i) item G)
                               G (elements transaction)) G l))
  ↔ n ∈ dom (adj G)
    ∨ ∃ i t, (i, t) ∈ l ∧ (n ∈ t ∨ (n = transaction_node i ∧ t ≠ ∅)).
Proof.
  revert G. induction l as [|[i t] l IH]; intros G.
  - simpl. split; [by left|]. intros [?|(i & t & Hin & _)]; [done|].
    by apply elem_of_nil in Hin.
  - simpl. rewrite IH, elem_of_dom_add_items. split.
    + intros [[Hn | [Hn | [-> Hne]]] | (i' & t' & Hin & Hn)].
      * by left.
      * right. exists i, t. split; [left|]. left. by apply elem_of_elements.
      * right. exists i, t. split; [left|]. right. split; [done|].
        intros ->. by rewrite elements_empty in Hne.
      * right. exists i', t'. split; [by right | done].
    + intros [Hn | (i' & t' & Hin & Hn)]; [by left; left|].
      apply elem_of_cons in Hin as [[= -> ->] | Hin].
      * left. right. destruct Hn as [Hn | [-> Hne]].
        -- left. by apply elem_of_elements.
        -- right. split; [done|]. intros He. apply Hne.
           by apply elements_empty_inv in He; apply leibniz_equiv.
      * right. by exists i', t'.
Qed.

Lemma build_graph_no_isolated_node (T : list (gset string)) :
  no_isolated_node (build_graph T).
Proof.
  apply build_from_no_isolated_node. intros n nbrs Hn.
  simpl in Hn. by rewrite lookup_empty in Hn.
Qed.

Lemma degree_positive (G : Graph) (n : string) :
  no_isolated_node G → n ∈ dom (adj G) → 0 < degree G n.
Proof.
  intros HG [nbrs Hn]%elem_of_dom. unfold degree, neighbours. rewrite Hn.
  simpl. specialize (HG n nbrs Hn).
  assert (size nbrs ≠ 0); [|lia]. by rewrite size_empty_iff, leibniz_equiv_iff.
Qed.

Lemma startswith_transaction_node (i : nat) :
  startswith (transaction_node i) "Transaction" = true.
Proof. reflexivity. Qed.

Lemma elem_of_single_items (G : Graph) (S : gset string) :
  S ∈ single_items G
  ↔ ∃ node, S = {[node]} ∧ node ∈ dom (adj G) ∧ 0 < degree G node
            ∧ startswith node "Transaction" = false.
Proof.
  unfold single_items, nodes.
  rewrite elem_of_list_to_set, list_elem_of_fmap.
  split; intros (node & -> & H); exists node; (split; [done|]).
  - apply list_elem_of_filter in H as [[Hdeg Hpre] Hin].
    apply list_elem_of_fmap in Hin as ([n nbrs] & -> & Hin).
    apply elem_of_map_to_list in Hin. split; [|done].
    apply elem_of_dom. by exists nbrs.
  - destruct H as ([nbrs Hn]%elem_of_dom & Hdeg & Hpre).
    apply list_elem_of_filter. split; [done|]. apply list_elem_of_fmap.
    exists (node, nbrs). split; [done|]. by apply elem_of_map_to_list.
Qed.

(** The seed of the search: the singletons of the items that occur in a
    transaction and whose label does not start with [Transaction]. *)
Lemma elem_of_seed (T : list (gset string)) (S : gset string) :
  S ∈ single_items (build_graph T)
  ↔ ∃ x, S = {[x]} ∧ (∃ t, t ∈ T ∧ x ∈ t)
         ∧ startswith x "Transaction" = false.
Proof.
  rewrite elem_of_single_items. unfold build_graph.
  split; intros (x & -> & H); exists x; (split; [done|]).
  - destruct H as (Hdom & _ & Hpre). split; [|done].
    apply elem_of_dom_build_from in Hdom as [Hdom | (i & t & Hin & Hx)].
    { simpl in Hdom. by rewrite dom_empty_L in Hdom. }
    destruct Hx as [Hx | [-> _]].
    + exists t. split; [|done].
      apply elem_of_lookup_imap in Hin as (j & t' & [= -> ->] & Hj).
      apply list_elem_of_lookup. by exists j.
    + by rewrite startswith_transaction_node in Hpre.
  - destruct H as ((t & Ht & Hx) & Hpre).
    assert (Hdom : x ∈ dom (adj (foldl (λ G '(i, transaction),
                      foldl (λ G item, add_edge (transaction_node i) item G)
                            G (elements transaction))
                                   empty_graph (imap pair T)))).
    { apply elem_of_dom_build_from. right.
      apply list_elem_of_lookup in Ht as [i Hi]. exists i, t.
      split; [|by left]. apply elem_of_lookup_imap. by exists i, t. }
    split; [done|]. split; [|done].
    apply degree_positive; [|done]. apply build_graph_no_isolated_node.
Qed.

(** ** The loop of the miner *)

Section loop_unfolding.
Variable count : gset (gset string) → list (gset string)
                 → M (gmap (gset string) nat).
Variable T : list (gset string).

Lemma lcofi_loop_empty (fuel : nat) (all : list (gmap (gset string) nat))
    (k : nat) :
  lcofi_loop count T fuel ∅ all k = Some (inr all).
Proof. destruct fuel; simpl; by rewrite decide_True. Qed.

Lemma lcofi_loop_step (fuel : nat) (freq : gmap (gset string) nat)
    (all : list (gmap (gset string) nat)) (k : nat) :
  freq ≠ ∅ →
  lcofi_loop count T (S fuel) freq all k
  = match count (generate_candidates freq k) T with
    | inl e => Some (inl e)
    | inr freq' =>
        lcofi_loop count T fuel freq'
          (if decide (freq' = ∅) then all else all ++ [freq']) (k + 1)
    end.
Proof. intros Hne. simpl. by rewrite decide_False. Qed.

(** More iterations do not change a result. *)
Lemma lcofi_loop_fuel_mono (fuel fuel' : nat) (freq : gmap (gset string) nat)
    (all : list (gmap (gset string) nat)) (k : nat)
    (r : M (list (gmap (gset string) nat))) :
  fuel ≤ fuel' →
  lcofi_loop count T fuel freq all k = Some r →
  lcofi_loop count T fuel' freq all k = Some r.
Proof.
  revert fuel' freq all k.
  induction fuel as [|fuel IH]; intros fuel' freq all k Hle Hrun.
  - destruct (decide (freq = ∅)) as [->|Hne].
    + rewrite lcofi_loop_empty in Hrun. by rewrite lcofi_loop_empty.
    + simpl in Hrun. by rewrite decide_False in Hrun.
  - destruct (decide (freq = ∅)) as [->|Hne].
    + rewrite lcofi_loop_empty in Hrun. by rewrite lcofi_loop_empty.
    + destruct fuel' as [|fuel']; [lia|].
      rewrite lcofi_loop_step in Hrun |- * by done.
      destruct (count _ T) as [e|freq']; [done|].
      apply IH; [lia | done].
Qed.

Lemma lcofi_with_fuel_mono (fuel fuel' : nat)
    (r : M (list (gmap (gset string) nat))) :
  fuel ≤ fuel' →
  lcofi_with count T fuel = Some r → lcofi_with count T fuel' = Some r.
Proof.
  unfold lcofi_with. intros Hle.
  destruct (count _ T) as [e|freq]; [done|].
  by apply lcofi_loop_fuel_mono.
Qed.
End loop_unfolding.

Lemma lcofi_returns_deterministic (T : list (gset string)) (ms : Qc)
    (levels levels' : list (gmap (gset string) nat)) :
  lcofi_returns T ms levels → lcofi_returns T ms levels' → levels = levels'.
Proof.
  intros [fuel Hrun] [fuel' Hrun']. unfold lcofi in *.
  apply (lcofi_with_fuel_mono _ _ fuel (fuel `max` fuel')) in Hrun; [|lia].
  apply (lcofi_with_fuel_mono _ _ fuel' (fuel `max` fuel')) in Hrun'; [|lia].
  congruence.
Qed.

Section loop_facts.
Variable T : list (gset string).
Variable ms : Qc.
Hypothesis HT : T ≠ [].

(** The level counted from the candidates of size [k] over [freq]. *)
Lemma next_level (freq : gmap (gset string) nat) (k : nat) :
  ∃ freq',
    count_support (generate_candidates freq k) T ms = inr freq'
    ∧ level_sound T ms k freq' ∧ drawn_from freq freq'.
Proof.
  destruct (count_support_spec (generate_candidates freq k) T ms HT)
    as (freq' & Hrun & Hfreq').
  exists freq'. split; [done|].
  assert (Hkey : ∀ F, is_Some (freq' !! F) → F ∈ generate_candidates freq k).
  { intros F [c Hc]. rewrite Hfreq' in Hc.
    destruct (decide (_ ∧ _)) as [[HF _]|_]; done. }
  split.
  - intros F c Hc. split.
    + assert (HF : F ∈ generate_candidates freq k) by (apply Hkey; eauto).
      by apply elem_of_generate_candidates in HF as [_ ?].
    + rewrite Hfreq' in Hc.
      destruct (decide (_ ∧ _)) as [[_ Hle]|_]; [|done].
      injection Hc as <-. done.
  - intros F x HF Hx. apply Hkey in HF.
    apply elem_of_generate_candidates in HF as [Hsub _].
    apply elem_of_item_universe. by apply Hsub.
Qed.

Lemma drawn_from_universe (prev level : gmap (gset string) nat) :
  drawn_from prev level → item_universe level ⊆ item_universe prev.
Proof.
  intros Hd x (F & HF & Hx)%elem_of_item_universe.
  apply elem_of_item_universe. by apply (Hd F).
Qed.

(** The invariant of the loop carries over to the list it returns. *)
Lemma lcofi_loop_invariant (fuel : nat) (freq : gmap (gset string) nat)
    (all : list (gmap (gset string) nat)) (k : nat)
    (levels : list (gmap (gset string) nat)) :
  lcofi_loop (λ itemsets transactions,
                count_support itemsets transactions ms) T fuel freq all k
  = Some (inr levels) →
  (freq ≠ ∅ → length all + 1 = k ∧ last all = Some freq) →
  levels_sound T ms all → levels_chained all →
  levels_sound T ms levels ∧ levels_chained levels.
Proof.
  revert freq all k.
  induction fuel as [|fuel IH]; intros freq all k Hrun Hlast Hsound Hchain.
  - simpl in Hrun. destruct (decide (freq = ∅)); [|done].
    by injection Hrun as <-.
  - destruct (decide (freq = ∅)) as [->|Hne].
    { rewrite lcofi_loop_empty in Hrun. by injection Hrun as <-. }
    rewrite lcofi_loop_step in Hrun by done.
    destruct (next_level freq k) as (freq' & Hcount & Hlvl & Hdrawn).
    rewrite Hcount in Hrun. destruct (Hlast Hne) as [Hlen Hfreq].
    apply IH in Hrun; [done|..].
    + intros Hne'. rewrite decide_False by done.
      rewrite length_app, last_snoc. simpl. split; [lia | done].
    + destruct (decide (freq' = ∅)); [done|].
      intros i level Hi. apply lookup_app_Some in Hi as [Hi | [Hge Hi]].
      * by apply Hsound.
      * apply list_lookup_singleton_Some in Hi as [Hi <-].
        by replace (S i) with k by lia.
    + destruct (decide (freq' = ∅)); [done|].
      intros i prev level Hi HSi.
      apply lookup_app_Some in HSi as [HSi | [Hge HSi]].
      * apply (Hchain i); [|done].
        apply lookup_app_Some in Hi as [Hi | [Hge _]]; [done|].
        apply lookup_lt_Some in HSi. lia.
      * apply list_lookup_singleton_Some in HSi as [HSi <-].
        assert (i = length all - 1) as -> by lia.
        rewrite lookup_app_l in Hi by lia.
        rewrite last_lookup in Hfreq.
        replace (pred (length all)) with (length all - 1) in Hfreq by lia.
        rewrite Hfreq in Hi. by injection Hi as <-.
Qed.

(** The loop ends: a non-empty level of size [k] needs [k] items in the
    universe of the level before, and universes do not grow. *)
Lemma lcofi_loop_terminates (fuel : nat) (freq : gmap (gset string) nat)
    (all : list (gmap (gset string) nat)) (k : nat) :
  S (S (size (item_universe freq)) - k) ≤ fuel →
  ∃ levels,
    lcofi_loop (λ itemsets transactions,
                  count_support itemsets transactions ms) T fuel freq all k
    = Some (inr levels).
Proof.
  revert freq all k. induction fuel as [|fuel IH]; intros freq all k Hfuel.
  - lia.
  - destruct (decide (freq = ∅)) as [->|Hne].
    { exists all. apply lcofi_loop_empty. }
    rewrite lcofi_loop_step by done.
    destruct (next_level freq k) as (freq' & -> & Hlvl & Hdrawn).
    destruct (decide (freq' = ∅)) as [->|Hne'].
    { exists all. apply lcofi_loop_empty. }
    apply IH.
    assert (Hsize : size (item_universe freq') ≤ size (item_universe freq)).
    { by apply subseteq_size, drawn_from_universe. }
    destruct (map_choose freq' Hne') as (F & c & HF).
    assert (k ≤ size (item_universe freq)); [|lia].
    destruct (Hlvl F c HF) as [<- _]. apply subseteq_size.
    intros x Hx. apply elem_of_item_universe. apply (Hdrawn F); [eauto|done].
Qed.
End loop_facts.

(** ** The miner *)

Lemma seed_no_transaction : single_items (build_graph []) = ∅.
Proof.
  apply set_eq. intros S. rewrite elem_of_seed. split.
  - intros (x & _ & (t & Ht & _) & _). by apply elem_of_nil in Ht.
  - intros HS. by apply elem_of_empty in HS.
Qed.

(** When the first level is empty the loop is not entered, and the list
    built before the loop is returned. *)
Lemma lcofi_first_level_empty (fuel : nat) (T : list (gset string))
    (ms : Qc) :
  count_support (single_items (build_graph T)) T ms = inr ∅ →
  lcofi fuel T ms = Some (inr [∅]).
Proof.
  intros Hcount. unfold lcofi, lcofi_with. rewrite Hcount.
  apply lcofi_loop_empty.
Qed.

Lemma lcofi_no_transaction (fuel : nat) (ms : Qc) :
  lcofi fuel [] ms = Some (inr [∅]).
Proof.
  apply lcofi_first_level_empty.
  rewrite seed_no_transaction, count_support_no_transaction.
  by rewrite decide_True.
Qed.

(** The first level: singletons that meet the threshold. *)
Lemma first_level (T : list (gset string)) (ms : Qc) :
  T ≠ [] →
  ∃ freq, count_support (single_items (build_graph T)) T ms = inr freq
          ∧ level_sound T ms 1 freq.
Proof.
  intros HT.
  destruct (count_support_spec (single_items (build_graph T)) T ms HT)
    as (freq & Hrun & Hfreq).
  exists freq. split; [done|]. intros F c Hc. rewrite Hfreq in Hc.
  destruct (decide (_ ∧ _)) as [[HF Hle]|_]; [|done].
  injection Hc as <-. split; [|done].
  apply elem_of_seed in HF as (x & -> & _). apply size_singleton.
Qed.

(** [lcofi] returns on every input. *)
Lemma lcofi_total (T : list (gset string)) (ms : Qc) :
  ∃ levels, lcofi_returns T ms levels.
Proof.
  destruct (decide (T = [])) as [->|HT].
  { exists [∅], 0. apply lcofi_no_transaction. }
  destruct (first_level T ms HT) as (freq & Hcount & _).
  destruct (lcofi_loop_terminates T ms HT
              (S (S (size (item_universe freq)) - 2)) freq [freq] 2)
    as [levels Hrun]; [done|].
  exists levels, (S (S (size (item_universe freq)) - 2)).
  unfold lcofi, lcofi_with. by rewrite Hcount.
Qed.

Lemma lcofi_sound (T : list (gset string)) (ms : Qc)
    (levels : list (gmap (gset string) nat)) :
  T ≠ [] → lcofi_returns T ms levels →
  levels_sound T ms levels ∧ levels_chained levels.
Proof.
  intros HT [fuel Hrun]. unfold lcofi, lcofi_with in Hrun.
  destruct (first_level T ms HT) as (freq & Hcount & Hlvl).
  rewrite Hcount in Hrun.
  apply (lcofi_loop_invariant T ms HT) in Hrun; [done|..].
  - by intros _.
  - intros [|i] level Hi; [|done]. by injection Hi as <-.
  - intros [|i] prev level Hi HSi; done.
Qed.

Lemma lcofi_chained (T : list (gset string)) (ms : Qc)
    (levels : list (gmap (gset string) nat)) :
  lcofi_returns T ms levels → levels_chained levels.
Proof.
  intros Hrun. destruct (decide (T = [])) as [->|HT].
  - assert (levels = [∅]) as ->.
    { apply (lcofi_returns_deterministic [] ms); [done|].
      exists 0. apply lcofi_no_transaction. }
    intros [|i] prev level Hi HSi; done.
  - by apply (lcofi_sound T ms).
Qed.

(** [lcofi] as written in [LOCFI_connect-game.ipynb] and
    [LOCFI_Pak_accidents.ipynb], where [min_support] is passed on to
    [count_support]: for every non-empty transaction list and every
    [min_support], it returns a sequence of levels in which every itemset
    [F] of the [k]-th level has exactly [k] items and a stored count [c]
    with [c / N ≥ min_support], [N] being the number of transactions. *)
Theorem lcofi_levels_sound (T : list (gset string)) (min_support : Qc)
    (HT : T ≠ []) :
  ∃ levels,
    lcofi_returns T min_support levels
    ∧ (∀ levels', lcofi_returns T min_support levels' → levels' = levels)
    ∧ ∀ k level F c,
        1 ≤ k → levels !! (k - 1) = Some level → level !! F = Some c →
        size F = k ∧ (min_support ≤ relative_support c T)%Qc.
Proof.
  destruct (lcofi_total T min_support) as [levels Hrun].
  exists levels. split; [done|]. split.
  - intros levels' Hrun'.
    by apply (lcofi_returns_deterministic T min_support).
  - intros k level F c Hk Hlevel HF.
    destruct (lcofi_sound T min_support levels HT Hrun) as [Hsound _].
    destruct (Hsound (k - 1) level Hlevel F c HF) as (Hsize & _ & Hle).
    split; [lia | done].
Qed.

Lemma lcofi_levels_sound_witness :
  Example.transactions ≠ []
  ∧ ∃ levels,
      lcofi_returns Example.transactions Example.min_support levels
      ∧ (∀ levels',
           lcofi_returns Example.transactions Example.min_support levels'
           → levels' = levels)
      ∧ ∀ k level F c,
          1 ≤ k → levels !! (k - 1) = Some level → level !! F = Some c →
          size F = k
          ∧ (Example.min_support
             ≤ relative_support c Example.transactions)%Qc.
Proof.
  split; [discriminate|].
  apply (lcofi_levels_sound Example.transactions Example.min_support).
  discriminate.
Defined.

(** C8. For every run of [lcofi] and every [k ≥ 2], every item of a
    frequent itemset of level [k] occurs in a frequent itemset of level
    [k - 1]. *)
Theorem lcofi_items_from_previous_level (T : list (gset string))
    (min_support : Qc) :
  ∃ levels,
    lcofi_returns T min_support levels
    ∧ (∀ levels', lcofi_returns T min_support levels' → levels' = levels)
    ∧ ∀ k prev level F x,
        2 ≤ k → levels !! (k - 2) = Some prev →
        levels !! (k - 1) = Some level →
        is_Some (level !! F) → x ∈ F →
        ∃ F', is_Some (prev !! F') ∧ x ∈ F'.
Proof.
  destruct (lcofi_total T min_support) as [levels Hrun].
  exists levels. split; [done|]. split.
  - intros levels' Hrun'.
    by apply (lcofi_returns_deterministic T min_support).
  - intros k prev level F x Hk Hprev Hlevel HF Hx.
    apply (lcofi_chained T min_support levels Hrun (k - 2) prev level)
      with (F := F); try done.
    by replace (S (k - 2)) with (k - 1) by lia.
Qed.

(** C4 (as the code behaves). When no single item meets [min_support],
    that is when level 1 is empty, [lcofi] returns the list that holds the
    empty level 1, and not the empty list: level 1 is put in the list
    before the loop, without the emptiness test that guards the levels
    appended in the loop. *)
Theorem lcofi_no_frequent_item (fuel : nat) (T : list (gset string))
    (min_support : Qc)
    (Hlevel1 : count_support (single_items (build_graph T)) T min_support
               = inr ∅) :
  lcofi fuel T min_support = Some (inr [∅])
  ∧ lcofi fuel T min_support ≠ Some (inr []).
Proof.
  rewrite (lcofi_first_level_empty fuel T min_support Hlevel1).
  split; [done | discriminate].
Qed.

Lemma lcofi_no_frequent_item_witness :
  count_support (single_items (build_graph [ {["A"]}; {["B"]} ]))
                [ {["A"]}; {["B"]} ] (Q2Qc (3 # 5)) = inr ∅
  ∧ lcofi 0 [ {["A"]}; {["B"]} ] (Q2Qc (3 # 5)) = Some (inr [∅])
  ∧ lcofi 0 [ {["A"]}; {["B"]} ] (Q2Qc (3 # 5)) ≠ Some (inr []).
Proof.
  assert (H : count_support (single_items (build_graph [ {["A"]}; {["B"]} ]))
                            [ {["A"]}; {["B"]} ] (Q2Qc (3 # 5)) = inr ∅).
  { apply (bool_decide_eq_true_1
             (count_support (single_items (build_graph [ {["A"]}; {["B"]} ]))
                            [ {["A"]}; {["B"]} ] (Q2Qc (3 # 5)) = inr ∅)).
    vm_compute. reflexivity. }
  split; [exact H|].
  exact (lcofi_no_frequent_item 0 [ {["A"]}; {["B"]} ] (Q2Qc (3 # 5)) H).
Defined.

(** C6, as stated, fails: on the empty transaction list [lcofi] returns
    normally, and [count_support] on one candidate ends in the raw
    [ZeroDivisionError]. *)
Lemma empty_transaction_set_not_reported :
  ¬ reports_empty_transaction_set (lcofi 0 [] (Q2Qc (3 # 5)))
  ∧ ¬ reports_empty_transaction_set
        (Some (count_support {[ {["A"]} ]} [] (Q2Qc (3 # 5)))).
Proof.
  split.
  - rewrite lcofi_no_transaction. by intros (e & [=] & _).
  - rewrite count_support_no_transaction.
    rewrite decide_False.
    + by intros (e & [= <-] & He).
    + intros He. apply (f_equal size) in He.
      by rewrite size_singleton, size_empty in He.
Qed.

(** C6, amended. On the empty transaction list nothing is detected or
    reported: [lcofi] returns normally, and [count_support] on a set of
    candidates that is not empty ends in the raw [ZeroDivisionError]. *)
Theorem empty_transaction_list_unguarded :
  (∀ fuel min_support,
     (∃ levels, lcofi fuel [] min_support = Some (inr levels))
     ∧ ¬ reports_empty_transaction_set (lcofi fuel [] min_support))
  ∧ (∀ C min_support,
       C ≠ ∅ → count_support C [] min_support = inl ZeroDivisionError)
  ∧ (∀ C min_support,
       ¬ reports_empty_transaction_set
           (Some (count_support C [] min_support))).
Proof.
  split; [|split].
  - intros fuel min_support. rewrite lcofi_no_transaction.
    split; [by eexists | by intros (e & [=] & _)].
  - intros C min_support HC. rewrite count_support_no_transaction.
    by rewrite decide_False.
  - intros C min_support. rewrite count_support_no_transaction.
    destruct (decide (C = ∅)) as [HC|HC].
    + by intros (e & [=] & _).
    + by intros (e & [= <-] & He).
Qed.

(** C5, as stated, fails: an item whose label starts with [Transaction]
    occurs in a transaction and is not in the seed. *)
Lemma seed_misses_transaction_prefixed_item :
  ¬ seed_is_distinct_items [ {["Transaction_fee"]} ].
Proof.
  intros H. destruct (H {["Transaction_fee"]}) as [_ Hin].
  assert (Hseed : {["Transaction_fee"]}
                  ∈ single_items (build_graph [ {["Transaction_fee"]} ])).
  { apply Hin. exists "Transaction_fee". split; [done|].
    exists {["Transaction_fee"]}. split; [left | by apply elem_of_singleton]. }
  apply elem_of_seed in Hseed as (x & Hx & _ & Hpre).
  apply singleton_inj in Hx as <-. discriminate Hpre.
Qed.

(** C5, amended. For every transaction list, the seed that [lcofi] derives
    from the incidence graph is the set of the singletons of the items
    that occur in at least one transaction and whose label does not start
    with [Transaction]; it is the set of all items that occur in a
    transaction when no label starts with [Transaction]. *)
Theorem seed_is_unprefixed_items (T : list (gset string)) :
  (∀ S : gset string,
     S ∈ single_items (build_graph T)
     ↔ ∃ x, S = {[x]} ∧ (∃ t, t ∈ T ∧ x ∈ t)
            ∧ startswith x "Transaction" = false)
  ∧ ((∀ t x, t ∈ T → x ∈ t → startswith x "Transaction" = false) →
     seed_is_distinct_items T).
Proof.
  split; [apply elem_of_seed|].
  intros Hpre S. rewrite elem_of_seed. split.
  - intros (x & -> & Hx & _). by exists x.
  - intros (x & -> & t & Ht & Hx). exists x. split; [done|].
    split; [by exists t | by apply (Hpre t)].
Qed.

(** ** The run of the example notebook *)

Lemma example_lcofi_ignores_argument (fuel : nat) (T : list (gset string))
    (ms : Qc) :
  Example.lcofi fuel T ms = lcofi fuel T Example.min_support.
Proof. reflexivity. Qed.

(** C3 (as the code behaves). [lcofi] of [LCOFI_example.ipynb] does not
    use its [min_support] argument, for its [count_support] compares with
    the notebook-level [min_support = 0.6]: called on the sample
    transactions with [min_support = 0.9] it returns the levels for [0.6],
    and level 1 holds [{A}] with the stored count 3 although
    [3 / 5 < 0.9]. *)
Theorem example_lcofi_misses_threshold :
  (∀ fuel T min_support,
     Example.lcofi fuel T min_support = lcofi fuel T Example.min_support)
  ∧ Example.lcofi 2 Example.transactions (Q2Qc (9 # 10))
    = Some (inr [ {[ {["C"]} := 5; {["A"]} := 3; {["B"]} := 3 ]};
                  {[ {["C"; "A"]} := 3; {["C"; "B"]} := 3 ]} ])
  ∧ ({[ {["C"]} := 5; {["A"]} := 3; {["B"]} := 3 ]}
     : gmap (gset string) nat) !! ({["A"]} : gset string) = Some 3
  ∧ ¬ (Q2Qc (9 # 10) ≤ relative_support 3 Example.transactions)%Qc.
Proof.
  split; [reflexivity|]. split; [|split].
  - apply (bool_decide_eq_true_1
             (Example.lcofi 2 Example.transactions (Q2Qc (9 # 10))
              = Some (inr [ {[ {["C"]} := 5; {["A"]} := 3; {["B"]} := 3 ]};
                            {[ {["C"; "A"]} := 3; {["C"; "B"]} := 3 ]} ]))).
    vm_compute. reflexivity.
  - vm_compute. reflexivity.
  - apply (bool_decide_eq_false_1
             (Q2Qc (9 # 10) ≤ relative_support 3 Example.transactions)%Qc).
    vm_compute. reflexivity.
Qed.

(** C7. On the transactions [{A,B,C}], [{A,C}], [{B,C,D}], [{A,C,D}],
    [{B,C}] with [min_support = 0.6], [lcofi] returns exactly two levels:
    level 1 maps [{C}] to 5, [{A}] to 3 and [{B}] to 3, level 2 maps
    [{C,A}] to 3 and [{C,B}] to 3; level 3 is empty, so that mining stops
    after level 2. *)
Theorem example_run (fuel : nat) :
  Example.lcofi (2 + fuel) Example.transactions Example.min_support
  = Some (inr [ {[ {["C"]} := 5; {["A"]} := 3; {["B"]} := 3 ]};
                {[ {["C"; "A"]} := 3; {["C"; "B"]} := 3 ]} ])
  ∧ lcofi (2 + fuel) Example.transactions (Q2Qc (3 # 5))
    = Some (inr [ {[ {["C"]} := 5; {["A"]} := 3; {["B"]} := 3 ]};
                  {[ {["C"; "A"]} := 3; {["C"; "B"]} := 3 ]} ])
  ∧ Example.count_support
      (generate_candidates {[ {["C"; "A"]} := 3; {["C"; "B"]} := 3 ]} 3)
      Example.transactions
    = inr ∅.
Proof.
  assert (Hrun : Example.lcofi (2 + fuel) Example.transactions
                               Example.min_support
                 = Some (inr [ {[ {["C"]} := 5; {["A"]} := 3; {["B"]} := 3 ]};
                               {[ {["C"; "A"]} := 3; {["C"; "B"]} := 3 ]} ])).
  { apply (lcofi_with_fuel_mono _ _ 2); [lia|].
    apply (bool_decide_eq_true_1
             (lcofi_with Example.count_support Example.transactions 2
              = Some (inr [ {[ {["C"]} := 5; {["A"]} := 3; {["B"]} := 3 ]};
                            {[ {["C"; "A"]} := 3; {["C"; "B"]} := 3 ]} ]))).
    vm_compute. reflexivity. }
  split; [exact Hrun|]. split; [exact Hrun|].
  apply (bool_decide_eq_true_1
             (Example.count_support
                (generate_candidates
                   {[ {["C"; "A"]} := 3; {["C"; "B"]} := 3 ]} 3)
                Example.transactions
              = inr ∅)).
  vm_compute. reflexivity.
Qed.

(** ** Rule derivation *)

Lemma mapM_true_div (l : list nat) (T : list (gset string))
    (supports : list Qc) :
  mapM (λ support, true_div support (length T)) l = inr supports →
  supports = (λ c, relative_support c T) <$> l.
Proof.
  revert supports. induction l as [|c l IH]; intros supports Hrun.
  - by injection Hrun as <-.
  - simpl in Hrun. destruct T as [|t T].
    { unfold true_div in Hrun. by rewrite decide_True in Hrun. }
    rewrite (true_div_nonempty c (t :: T)) in Hrun by done. simpl in Hrun.
    destruct (mapM _ l) as [e|k] eqn:Hk; [done|]. simpl in Hrun.
    injection Hrun as <-. by rewrite (IH k).
Qed.

Lemma zip_fst_fmap_snd {A B C} (f : B → C) (l : list (A * B)) :
  zip l.*1 (f <$> l.*2) = prod_map id f <$> l.
Proof. induction l as [|[a b] l IH]; [done|]. csimpl. by f_equal. Qed.

(** The data frame handed to [association_rules]: one row per flattened
    itemset, with its relative support. *)
Lemma generate_association_rules_inr
    (levels : list (gmap (gset string) nat)) (T : list (gset string))
    (mc : Qc) (rules : list Rule) :
  generate_association_rules levels T mc = inr rules →
  rules = association_rules
            (prod_map id (λ c, relative_support c T)
               <$> map_to_list (flatten levels)) mc.
Proof.
  unfold generate_association_rules. intros Hrun.
  destruct (mapM _ _) as [e|supports] eqn:Hs; [done|].
  apply mapM_true_div in Hs as ->. simpl in Hrun. injection Hrun as <-.
  by rewrite zip_fst_fmap_snd.
Qed.

Lemma lookup_support_table (flat : gmap (gset string) nat)
    (T : list (gset string)) (S : gset string) :
  (list_to_map (prod_map id (λ c, relative_support c T) <$> map_to_list flat)
     : gmap (gset string) Qc) !! S
  = (λ c, relative_support c T) <$> flat !! S.
Proof. by rewrite list_to_map_fmap, list_to_map_to_list, lookup_fmap. Qed.

Lemma elem_of_proper_subsets (F A : gset string) :
  A ∈ proper_subsets F ↔ A ⊆ F ∧ 1 ≤ size A ∧ size A < size F.
Proof.
  unfold proper_subsets. rewrite list_elem_of_bind. split.
  - intros (r & HA & Hr). apply elem_of_subsets_of_size in HA as [Hsub <-].
    apply elem_of_seq in Hr. split; [done | lia].
  - intros (Hsub & H1 & Hlt). exists (size A). split.
    + by apply elem_of_subsets_of_size.
    + apply elem_of_seq. lia.
Qed.

Lemma score_rule_Some (supp : gmap (gset string) Qc) (F A : gset string)
    (sF : Qc) (r : Rule) :
  score_rule supp F A sF = Some r
  ↔ ∃ sA sC, supp !! A = Some sA ∧ supp !! (F ∖ A) = Some sC
             ∧ sA ≠ 0%Qc ∧ sC ≠ 0%Qc
             ∧ r = {| antecedents := A;
                      consequents := F ∖ A;
                      support := sF;
                      confidence := (sF / sA)%Qc;
                      lift := (sF / sA / sC)%Qc;
                      leverage := (sF - sA * sC)%Qc |}.
Proof.
  unfold score_rule. split.
  - destruct (supp !! A) as [sA|]; [|done].
    destruct (supp !! (F ∖ A)) as [sC|]; [|done]. simpl.
    destruct (decide _) as [?|Hn]; [done|]. intros [= <-].
    exists sA, sC. repeat split; try done; intros ->; apply Hn; auto.
  - intros (sA & sC & -> & -> & HA & HC & ->). simpl.
    rewrite decide_False; [done|]. by intros [?|?].
Qed.

Lemma elem_of_association_rules (df : list (gset string * Qc)) (mc : Qc)
    (r : Rule) :
  r ∈ association_rules df mc
  ↔ ∃ F sF A, (F, sF) ∈ df ∧ 2 ≤ size F ∧ A ∈ proper_subsets F
              ∧ score_rule (list_to_map df) F A sF = Some r
              ∧ (mc ≤ confidence r)%Qc.
Proof.
  unfold association_rules. rewrite list_elem_of_bind. split.
  - intros ([F sF] & Hr & Hin). destruct (decide (2 ≤ size F)) as [H2|];
      [|by apply elem_of_nil in Hr].
    apply list_elem_of_bind in Hr as (A & Hr & HA).
    destruct (score_rule _ F A sF) as [r'|] eqn:Hscore;
      [|by apply elem_of_nil in Hr].
    destruct (decide (mc ≤ confidence r')%Qc) as [Hle|];
      [|by apply elem_of_nil in Hr].
    apply list_elem_of_singleton in Hr as ->. by exists F, sF, A.
  - intros (F & sF & A & Hin & H2 & HA & Hscore & Hle).
    exists (F, sF). split; [|done]. rewrite decide_True by done.
    apply list_elem_of_bind. exists A. split; [|done].
    rewrite Hscore, decide_True by done. by apply list_elem_of_singleton.
Qed.

(** C9. Every rule returned by [generate_association_rules] has a
    confidence of at least [min_confidence], the confidence being the
    support of the union of antecedent and consequent divided by the
    support of the antecedent; and confidence is the only test: every
    split of a flattened itemset whose sides have a known support other
    than zero and whose confidence reaches [min_confidence] is returned,
    whatever its lift and leverage. *)
Theorem rules_meet_min_confidence
    (levels : list (gmap (gset string) nat)) (T : list (gset string))
    (min_confidence : Qc) (rules : list Rule)
    (Hrun : generate_association_rules levels T min_confidence = inr rules) :
  (∀ r, r ∈ rules →
        (min_confidence ≤ confidence r)%Qc
        ∧ ∃ cF cA,
            flatten levels !! (antecedents r ∪ consequents r) = Some cF
            ∧ flatten levels !! antecedents r = Some cA
            ∧ confidence r
              = (relative_support cF T / relative_support cA T)%Qc)
  ∧ (∀ F A cF cA cC,
       flatten levels !! F = Some cF →
       flatten levels !! A = Some cA →
       flatten levels !! (F ∖ A) = Some cC →
       A ⊆ F → A ≠ ∅ → A ≠ F →
       relative_support cA T ≠ 0%Qc → relative_support cC T ≠ 0%Qc →
       (min_confidence ≤ relative_support cF T / relative_support cA T)%Qc →
       ∃ r, r ∈ rules ∧ antecedents r = A ∧ consequents r = F ∖ A).
Proof.
  apply generate_association_rules_inr in Hrun as ->. split.
  - intros r (F & sF & A & Hin & _ & HA & Hscore & Hle)%elem_of_association_rules.
    split; [done|].
    apply score_rule_Some in Hscore as (sA & sC & HsA & _ & _ & _ & ->).
    simpl. apply elem_of_proper_subsets in HA as [Hsub _].
    apply list_elem_of_fmap in Hin as ([F' cF] & [= -> ->] & Hin).
    apply elem_of_map_to_list in Hin.
    rewrite lookup_support_table in HsA.
    destruct (flatten levels !! A) as [cA|] eqn:HcA; [|done].
    injection HsA as <-. exists cF, cA.
    replace (A ∪ F' ∖ A) with F'; [done|].
    apply set_eq. intros x. rewrite elem_of_union, elem_of_difference.
    split; [|intros [?|[? _]]; [by apply Hsub | done]].
    intros Hx. destruct (decide (x ∈ A)); [by left | by right].
  - intros F A cF cA cC HF HA HC Hsub Hne HneF HsA HsC Hle.
    eexists. split.
    + apply elem_of_association_rules.
      exists F, (relative_support cF T), A. split.
      { apply list_elem_of_fmap. exists (F, cF). split; [done|].
        by apply elem_of_map_to_list. }
      assert (Hsize : 1 ≤ size A ∧ size A < size F).
      { split.
        - assert (size A ≠ 0); [|lia].
          by rewrite size_empty_iff, leibniz_equiv_iff.
        - apply subset_size. split; [done|]. intros Hsup. apply HneF.
          apply set_eq. intros x. split; [apply Hsub | apply Hsup]. }
      split; [lia|]. split; [by apply elem_of_proper_subsets|]. split.
      * apply score_rule_Some.
        exists (relative_support cA T), (relative_support cC T).
        rewrite !lookup_support_table, HA, HC. done.
      * done.
    + done.
Qed.

Lemma rules_meet_min_confidence_witness :
  generate_association_rules example_levels Example.transactions
                             (Q2Qc (3 # 5)) = inr example_rules
  ∧ (∀ r, r ∈ example_rules →
          (Q2Qc (3 # 5) ≤ confidence r)%Qc
          ∧ ∃ cF cA,
              flatten example_levels !! (antecedents r ∪ consequents r)
              = Some cF
              ∧ flatten example_levels !! antecedents r = Some cA
              ∧ confidence r
                = (relative_support cF Example.transactions
                   / relative_support cA Example.transactions)%Qc)
  ∧ (∀ F A cF cA cC,
       flatten example_levels !! F = Some cF →
       flatten example_levels !! A = Some cA →
       flatten example_levels !! (F ∖ A) = Some cC →
       A ⊆ F → A ≠ ∅ → A ≠ F →
       relative_support cA Example.transactions ≠ 0%Qc →
       relative_support cC Example.transactions ≠ 0%Qc →
       (Q2Qc (3 # 5) ≤ relative_support cF Example.transactions
                        / relative_support cA Example.transactions)%Qc →
       ∃ r, r ∈ example_rules ∧ antecedents r = A ∧ consequents r = F ∖ A).
Proof.
  assert (H : generate_association_rules example_levels Example.transactions
                                         (Q2Qc (3 # 5)) = inr example_rules).
  { apply (bool_decide_eq_true_1
             (generate_association_rules example_levels Example.transactions
                                         (Q2Qc (3 # 5)) = inr example_rules)).
    vm_compute. reflexivity. }
  split; [exact H|].
  exact (rules_meet_min_confidence example_levels Example.transactions
                                   (Q2Qc (3 # 5)) example_rules H).
Defined.

(** * Further properties of the miner *)

(** ** The result as an iteration of generate and count *)

Lemma lcofi_loop_iterated (T : list (gset string)) (ms : Qc) (fuel : nat)
    (freq : gmap (gset string) nat) (all : list (gmap (gset string) nat))
    (k : nat) (levels : list (gmap (gset string) nat)) :
  lcofi_loop (λ itemsets transactions,
                count_support itemsets transactions ms) T fuel freq all k
  = Some (inr levels) →
  (freq ≠ ∅ → length all + 1 = k ∧ last all = Some freq) →
  (freq = ∅ → levels_stop T ms all) →
  levels_start T ms all → levels_step T ms all →
  levels_start T ms levels ∧ levels_step T ms levels
  ∧ levels_stop T ms levels.
Proof.
  revert freq all k.
  induction fuel as [|fuel IH]; intros freq all k Hrun Hlast Hstop Hstart Hstep.
  - simpl in Hrun. destruct (decide (freq = ∅)) as [He|]; [|done].
    injection Hrun as <-. auto.
  - destruct (decide (freq = ∅)) as [->|Hne].
    { rewrite lcofi_loop_empty in Hrun. injection Hrun as <-. auto. }
    rewrite lcofi_loop_step in Hrun by done.
    destruct (count_support (generate_candidates freq k) T ms)
      as [e|freq'] eqn:Hcount; [done|].
    destruct (Hlast Hne) as [Hlen Hfreq].
    destruct (decide (freq' = ∅)) as [->|Hne'].
    + apply IH in Hrun; [done|done|..|done|done].
      intros _ final Hfinal Hfne. rewrite Hfreq in Hfinal.
      injection Hfinal as <-. by rewrite Hlen.
    + destruct Hstart as (first & Hfirst & Hcount1).
      apply IH in Hrun; [done|..].
      * intros _. rewrite length_app, last_snoc. simpl. split; [lia | done].
      * done.
      * exists first. split; [|done]. apply lookup_app_l_Some, Hfirst.
      * intros i prev level Hi HSi.
        apply lookup_app_Some in HSi as [HSi | [Hge HSi]].
        -- apply (Hstep i); [|done].
           apply lookup_app_Some in Hi as [Hi | [Hge _]]; [done|].
           apply lookup_lt_Some in HSi. lia.
        -- apply list_lookup_singleton_Some in HSi as [HSi <-].
           assert (i = length all - 1) as -> by lia.
           rewrite lookup_app_l in Hi by lia.
           rewrite last_lookup in Hfreq.
           replace (pred (length all)) with (length all - 1) in Hfreq by lia.
           rewrite Hfreq in Hi. injection Hi as <-. split; [done|].
           by replace (length all - 1 + 2) with k by lia.
Qed.

Lemma lcofi_iterated (T : list (gset string)) (min_support : Qc)
    (levels : list (gmap (gset string) nat)) :
  lcofi_returns T min_support levels →
  levels_start T min_support levels ∧ levels_step T min_support levels
  ∧ levels_stop T min_support levels.
Proof.
  intros Hrun.
  destruct Hrun as [fuel Hrun]. unfold lcofi, lcofi_with in Hrun.
  destruct (count_support (single_items (build_graph T)) T min_support)
    as [e|first] eqn:Hcount; [done|].
  apply lcofi_loop_iterated in Hrun; [done|..].
  - by intros _.
  - intros -> final [= <-] Hne. done.
  - by exists first.
  - intros [|i] prev level Hi HSi; done.
Qed.

Lemma example_lcofi_returns :
  lcofi_returns Example.transactions Example.min_support example_levels.
Proof.
  exists 2.
  apply (bool_decide_eq_true_1
           (lcofi 2 Example.transactions Example.min_support
            = Some (inr example_levels))).
  vm_compute. reflexivity.
Qed.

(** X1. The list that [lcofi] returns is the iteration of generating and
    counting: its first level is the support count of the seed; every
    further level is not empty and is the support count of the candidates
    generated, one size up, from the level before it; and counting the
    candidates generated from a last level that is not empty retains
    nothing. *)
Theorem lcofi_iterates_generate_and_count (T : list (gset string))
    (min_support : Qc) (levels : list (gmap (gset string) nat))
    (Hrun : lcofi_returns T min_support levels) :
  levels_start T min_support levels ∧ levels_step T min_support levels
  ∧ levels_stop T min_support levels.
Proof.
  destruct Hrun as [fuel Hrun]. unfold lcofi, lcofi_with in Hrun.
  destruct (count_support (single_items (build_graph T)) T min_support)
    as [e|first] eqn:Hcount; [done|].
  apply lcofi_loop_iterated in Hrun; [done|..].
  - by intros _.
  - intros -> final [= <-] Hne. done.
  - by exists first.
  - intros [|i] prev level Hi HSi; done.
Qed.

Lemma lcofi_iterates_generate_and_count_witness :
  lcofi_returns Example.transactions Example.min_support example_levels
  ∧ levels_start Example.transactions Example.min_support example_levels
  ∧ levels_step Example.transactions Example.min_support example_levels
  ∧ levels_stop Example.transactions Example.min_support example_levels.
Proof.
  split; [exact example_lcofi_returns|].
  exact (lcofi_iterates_generate_and_count
           Example.transactions Example.min_support example_levels
           example_lcofi_returns).
Defined.

(** ** Exactness: the levels hold the frequent itemsets and nothing else *)

Lemma relative_support_mono (c c' : nat) (T : list (gset string)) :
  T ≠ [] → c' ≤ c → (relative_support c' T ≤ relative_support c T)%Qc.
Proof.
  intros HT Hle. unfold relative_support, Qcdiv.
  apply Qcmult_le_mono_nonneg_r.
  - apply Qclt_le_weak, Qcinv_pos. rewrite <- Z2Qc_inj_0.
    apply (proj1 (Z2Qc_inj_lt _ _)). destruct T; [done|].
    rewrite length_cons. lia.
  - apply (proj1 (Z2Qc_inj_le _ _)). lia.
Qed.

(** The keys of the first level are seed singletons. *)
Lemma first_level_keys (T : list (gset string)) (ms : Qc)
    (levels : list (gmap (gset string) nat))
    (first : gmap (gset string) nat) (F : gset string) :
  T ≠ [] → levels_start T ms levels → levels !! 0 = Some first →
  is_Some (first !! F) → F ∈ single_items (build_graph T).
Proof.
  intros HT (first' & Hfirst & Hcount) Hl [c Hc].
  rewrite Hl in Hfirst. injection Hfirst as <-.
  destruct (count_support_spec (single_items (build_graph T)) T ms HT)
    as (m & Hrun & Hm).
  rewrite Hrun in Hcount. injection Hcount as <-.
  rewrite Hm in Hc. by destruct (decide (_ ∧ _)) as [[HF _]|_].
Qed.

(** Every item of an itemset of any level is a seed item. *)
Lemma level_items_in_seed (T : list (gset string)) (ms : Qc)
    (levels : list (gmap (gset string) nat)) :
  T ≠ [] → lcofi_returns T ms levels →
  ∀ i level F x, levels !! i = Some level → is_Some (level !! F) → x ∈ F →
                 {[x]} ∈ single_items (build_graph T).
Proof.
  intros HT Hrun. destruct (lcofi_iterated T ms levels Hrun) as (Hstart & _).
  pose proof (lcofi_chained T ms levels Hrun) as Hchain.
  induction i as [|i IH]; intros level F x Hi HF Hx.
  - pose proof (first_level_keys T ms levels level F HT Hstart Hi HF) as Hin.
    apply elem_of_seed in Hin as (y & -> & _).
    apply elem_of_singleton in Hx as ->.
    by apply (first_level_keys T ms levels level {[y]} HT Hstart Hi).
  - destruct (levels !! i) as [prev|] eqn:Hprev.
    + destruct (Hchain i prev level Hprev Hi F x HF Hx) as (F' & HF' & Hx').
      by apply (IH prev F').
    + apply lookup_ge_None in Hprev. apply lookup_lt_Some in Hi. lia.
Qed.

(** Every itemset of seed items that meets the threshold is in the level
    of its size. *)
Lemma lcofi_complete (T : list (gset string)) (ms : Qc)
    (levels : list (gmap (gset string) nat)) :
  T ≠ [] → lcofi_returns T ms levels →
  ∀ i F, size F = S i →
         (∀ x, x ∈ F → {[x]} ∈ single_items (build_graph T)) →
         (ms ≤ relative_support (containment_count F T) T)%Qc →
         ∃ level, levels !! i = Some level
                  ∧ level !! F = Some (containment_count F T).
Proof.
  intros HT Hrun.
  destruct (lcofi_iterated T ms levels Hrun) as (Hstart & Hstep & Hstop).
  induction i as [|i IH]; intros F Hsize Hseed Hle.
  - destruct Hstart as (first & Hfirst & Hcount). exists first.
    split; [done|].
    destruct (count_support_spec (single_items (build_graph T)) T ms HT)
      as (m & Hrun' & Hm).
    rewrite Hrun' in Hcount. injection Hcount as <-.
    rewrite Hm, decide_True; [done|]. split; [|done].
    apply size_1_elem_of in Hsize as [x Hx]. apply leibniz_equiv in Hx.
    subst F. apply Hseed. by apply elem_of_singleton.
  - assert (Hsub : ∀ x, x ∈ F →
              ∃ prev, levels !! i = Some prev
                      ∧ is_Some (prev !! (F ∖ {[x]}))).
    { intros x Hx.
      destruct (IH (F ∖ {[x]})) as (prev & Hprev & Hlook).
      - rewrite size_difference, size_singleton, Hsize by set_solver. lia.
      - intros y Hy. apply Hseed. set_solver.
      - eapply Qcle_trans; [exact Hle|].
        apply relative_support_mono; [done|].
        apply containment_count_mono. set_solver.
      - exists prev. split; [done | eauto]. }
    destruct (size_pos_elem_of F) as [x0 Hx0]; [lia|].
    destruct (Hsub x0 Hx0) as (prev & Hprev & Hin0).
    assert (Hcand : F ∈ generate_candidates prev (i + 2)).
    { apply elem_of_generate_candidates. split; [|lia].
      intros z Hz. apply elem_of_item_universe.
      destruct (size_pos_elem_of (F ∖ {[z]})) as [x Hx].
      { rewrite size_difference, size_singleton, Hsize by set_solver. lia. }
      destruct (Hsub x) as (prev' & Hprev' & Hin); [set_solver|].
      rewrite Hprev in Hprev'. injection Hprev' as <-.
      exists (F ∖ {[x]}). split; [done | set_solver]. }
    destruct (count_support_spec (generate_candidates prev (i + 2)) T ms HT)
      as (m & Hrun' & Hm).
    assert (HmF : m !! F = Some (containment_count F T)).
    { by rewrite Hm, decide_True. }
    destruct (levels !! S i) as [level|] eqn:Hlevel.
    + exists level. split; [done|].
      destruct (Hstep i prev level Hprev Hlevel) as [_ Hcount].
      rewrite Hrun' in Hcount. by injection Hcount as <-.
    + exfalso. apply lookup_ge_None in Hlevel.
      pose proof (lookup_lt_Some _ _ _ Hprev) as Hlt.
      assert (Hlast : last levels = Some prev).
      { rewrite last_lookup.
        by replace (pred (length levels)) with i by lia. }
      assert (Hne : prev ≠ ∅).
      { intros ->. destruct Hin0 as [c Hc]. by rewrite lookup_empty in Hc. }
      pose proof (Hstop prev Hlast Hne) as Hcount.
      replace (length levels + 1) with (i + 2) in Hcount by lia.
      rewrite Hrun' in Hcount. injection Hcount as ->.
      by rewrite lookup_empty in HmF.
Qed.

Lemma seed_item_iff (T : list (gset string)) (x : string) :
  {[x]} ∈ single_items (build_graph T)
  ↔ (∃ t, t ∈ T ∧ x ∈ t) ∧ startswith x "Transaction" = false.
Proof.
  rewrite elem_of_seed. split.
  - intros (y & Hy & Ht & Hpre). by apply singleton_inj in Hy as <-.
  - intros [Ht Hpre]. by exists x.
Qed.

Lemma lcofi_exact (T : list (gset string)) (ms : Qc)
    (levels : list (gmap (gset string) nat)) :
  T ≠ [] → lcofi_returns T ms levels →
  ∀ i F c,
    (∃ level, levels !! i = Some level ∧ level !! F = Some c)
    ↔ size F = S i
      ∧ (∀ x, x ∈ F → {[x]} ∈ single_items (build_graph T))
      ∧ c = containment_count F T
      ∧ (ms ≤ relative_support c T)%Qc.
Proof.
  intros HT Hrun i F c. split.
  - intros (level & Hi & HF).
    destruct (lcofi_sound T ms levels HT Hrun) as [Hsound _].
    destruct (Hsound i level Hi F c HF) as (Hsize & Hc & Hle).
    split; [done|]. split; [|done]. intros x Hx.
    apply (level_items_in_seed T ms levels HT Hrun i level F); eauto.
  - intros (Hsize & Hseed & -> & Hle).
    by apply (lcofi_complete T ms levels HT Hrun).
Qed.

(** X2. On a non-empty transaction list the levels returned by [lcofi] are
    exact: an itemset [F] is stored with count [c] in level [i + 1] if and
    only if [F] has [i + 1] items, each item occurs in some transaction
    and has a label that does not start with [Transaction], [c] is the
    number of transactions that contain [F], and [c / N] reaches
    [min_support].  No frequent itemset is missed, although the candidates
    are not pruned. *)
Theorem lcofi_levels_exact (T : list (gset string)) (min_support : Qc)
    (levels : list (gmap (gset string) nat))
    (HT : T ≠ []) (Hrun : lcofi_returns T min_support levels) :
  ∀ i F c,
    (∃ level, levels !! i = Some level ∧ level !! F = Some c)
    ↔ size F = S i
      ∧ (∀ x, x ∈ F →
              (∃ t, t ∈ T ∧ x ∈ t) ∧ startswith x "Transaction" = false)
      ∧ c = containment_count F T
      ∧ (min_support ≤ relative_support c T)%Qc.
Proof.
  intros i F c. rewrite (lcofi_exact T min_support levels HT Hrun).
  split; intros (Hsize & Hseed & Hc & Hle);
    (split; [done|]); (split; [|done]); intros y Hy;
    apply seed_item_iff; by apply Hseed.
Qed.

Lemma lcofi_levels_exact_witness :
  Example.transactions ≠ []
  ∧ lcofi_returns Example.transactions Example.min_support example_levels
  ∧ ∀ i F c,
      (∃ level, example_levels !! i = Some level ∧ level !! F = Some c)
      ↔ size F = S i
        ∧ (∀ x, x ∈ F →
                (∃ t, t ∈ Example.transactions ∧ x ∈ t)
                ∧ startswith x "Transaction" = false)
        ∧ c = containment_count F Example.transactions
        ∧ (Example.min_support
           ≤ relative_support c Example.transactions)%Qc.
Proof.
  assert (HT : Example.transactions ≠ []) by discriminate.
  split; [exact HT|]. split; [exact example_lcofi_returns|].
  exact (lcofi_levels_exact Example.transactions Example.min_support
                            example_levels HT example_lcofi_returns).
Defined.

(** X3. The result is downward closed: on a non-empty transaction list,
    every non-empty subset [S] of an itemset [F] stored in some level with
    count [c] is stored in the level of its own size, with a count of at
    least [c]. *)
Theorem lcofi_downward_closed (T : list (gset string)) (min_support : Qc)
    (levels : list (gmap (gset string) nat)) (i : nat)
    (level : gmap (gset string) nat) (F S : gset string) (c : nat)
    (HT : T ≠ []) (Hrun : lcofi_returns T min_support levels)
    (Hi : levels !! i = Some level) (HF : level !! F = Some c)
    (Hsub : S ⊆ F) (Hne : S ≠ ∅) :
  ∃ level' c',
    levels !! (size S - 1) = Some level' ∧ level' !! S = Some c' ∧ c ≤ c'.
Proof.
  destruct (proj1 (lcofi_exact T min_support levels HT Hrun i F c))
    as (Hsize & Hseed & -> & Hle); [by exists level|].
  assert (Hpos : size S ≠ 0).
  { by rewrite size_empty_iff, leibniz_equiv_iff. }
  destruct (proj2 (lcofi_exact T min_support levels HT Hrun (size S - 1) S
                               (containment_count S T)))
    as (level' & Hi' & HS).
  { split; [lia|]. split; [intros x Hx; apply Hseed; by apply Hsub|].
    split; [done|]. eapply Qcle_trans; [exact Hle|].
    apply relative_support_mono; [done|]. by apply containment_count_mono. }
  exists level', (containment_count S T). split; [done|]. split; [done|].
  by apply containment_count_mono.
Qed.

Lemma lcofi_downward_closed_witness :
  Example.transactions ≠ []
  ∧ lcofi_returns Example.transactions Example.min_support example_levels
  ∧ example_levels !! 1
    = Some ({[ {["C"; "A"]} := 3; {["C"; "B"]} := 3 ]}
            : gmap (gset string) nat)
  ∧ ({[ {["C"; "A"]} := 3; {["C"; "B"]} := 3 ]} : gmap (gset string) nat)
      !! ({["C"; "A"]} : gset string) = Some 3
  ∧ ({["A"]} : gset string) ⊆ {["C"; "A"]}
  ∧ ({["A"]} : gset string) ≠ ∅
  ∧ ∃ level' c',
      example_levels !! (size ({["A"]} : gset string) - 1) = Some level'
      ∧ level' !! ({["A"]} : gset string) = Some c' ∧ 3 ≤ c'.
Proof.
  assert (HT : Example.transactions ≠ []) by discriminate.
  assert (Hi : example_levels !! 1
               = Some ({[ {["C"; "A"]} := 3; {["C"; "B"]} := 3 ]}
                       : gmap (gset string) nat)) by reflexivity.
  assert (HF : ({[ {["C"; "A"]} := 3; {["C"; "B"]} := 3 ]}
                : gmap (gset string) nat)
                 !! ({["C"; "A"]} : gset string) = Some 3).
  { vm_compute. reflexivity. }
  assert (Hsub : ({["A"]} : gset string) ⊆ {["C"; "A"]}).
  { apply union_subseteq_r. }
  assert (Hne : ({["A"]} : gset string) ≠ ∅).
  { apply non_empty_singleton_L. }
  split; [exact HT|]. split; [exact example_lcofi_returns|].
  split; [exact Hi|]. split; [exact HF|]. split; [exact Hsub|].
  split; [exact Hne|].
  exact (lcofi_downward_closed Example.transactions Example.min_support
           example_levels 1 _ _ _ 3 HT example_lcofi_returns Hi HF Hsub Hne).
Defined.

(** X4. Raising the threshold only removes itemsets: on a non-empty
    transaction list, when [min_support ≤ min_support'], every itemset
    stored in a level of the result for [min_support'] is stored in the
    same level, with the same count, of the result for [min_support]. *)
Theorem lcofi_threshold_antitone (T : list (gset string))
    (min_support min_support' : Qc)
    (levels levels' : list (gmap (gset string) nat)) (i : nat)
    (level' : gmap (gset string) nat) (F : gset string) (c : nat)
    (HT : T ≠ []) (Hle : (min_support ≤ min_support')%Qc)
    (Hrun : lcofi_returns T min_support levels)
    (Hrun' : lcofi_returns T min_support' levels')
    (Hi : levels' !! i = Some level') (HF : level' !! F = Some c) :
  ∃ level, levels !! i = Some level ∧ level !! F = Some c.
Proof.
  destruct (proj1 (lcofi_exact T min_support' levels' HT Hrun' i F c))
    as (Hsize & Hseed & Hc & Hle'); [by exists level'|].
  apply (lcofi_exact T min_support levels HT Hrun).
  repeat split; try done. by eapply Qcle_trans.
Qed.

Lemma lcofi_threshold_antitone_witness :
  Example.transactions ≠ []
  ∧ (Example.min_support ≤ 1)%Qc
  ∧ lcofi_returns Example.transactions Example.min_support example_levels
  ∧ lcofi_returns Example.transactions 1%Qc [ {[ {["C"]} := 5 ]} ]
  ∧ [ ({[ {["C"]} := 5 ]} : gmap (gset string) nat) ] !! 0
    = Some {[ {["C"]} := 5 ]}
  ∧ ({[ {["C"]} := 5 ]} : gmap (gset string) nat) !! ({["C"]} : gset string)
    = Some 5
  ∧ ∃ level, example_levels !! 0 = Some level
             ∧ level !! ({["C"]} : gset string) = Some 5.
Proof.
  assert (HT : Example.transactions ≠ []) by discriminate.
  assert (Hle : (Example.min_support ≤ 1)%Qc).
  { apply (bool_decide_eq_true_1 (Example.min_support ≤ 1)%Qc).
    vm_compute. reflexivity. }
  assert (Hrun' : lcofi_returns Example.transactions 1%Qc
                                [ {[ {["C"]} := 5 ]} ]).
  { exists 1.
    apply (bool_decide_eq_true_1
             (lcofi 1 Example.transactions 1%Qc
              = Some (inr [ {[ {["C"]} := 5 ]} ]))).
    vm_compute. reflexivity. }
  assert (Hi : [ ({[ {["C"]} := 5 ]} : gmap (gset string) nat) ] !! 0
               = Some {[ {["C"]} := 5 ]}) by reflexivity.
  assert (HF : ({[ {["C"]} := 5 ]} : gmap (gset string) nat)
                 !! ({["C"]} : gset string) = Some 5).
  { vm_compute. reflexivity. }
  split; [exact HT|]. split; [exact Hle|].
  split; [exact example_lcofi_returns|]. split; [exact Hrun'|].
  split; [exact Hi|]. split; [exact HF|].
  exact (lcofi_threshold_antitone Example.transactions Example.min_support
           1%Qc example_levels _ 0 _ _ 5 HT Hle example_lcofi_returns Hrun'
           Hi HF).
Defined.

(** ** Shape of the result and number of iterations *)

Lemma level_items_in_first (T : list (gset string)) (ms : Qc)
    (levels : list (gmap (gset string) nat))
    (first : gmap (gset string) nat) :
  lcofi_returns T ms levels → levels !! 0 = Some first →
  ∀ i level F, levels !! i = Some level → is_Some (level !! F) →
               F ⊆ item_universe first.
Proof.
  intros Hrun Hfirst.
  pose proof (lcofi_chained T ms levels Hrun) as Hchain.
  induction i as [|i IH]; intros level F Hi HF x Hx.
  - rewrite Hfirst in Hi. injection Hi as <-.
    apply elem_of_item_universe. by exists F.
  - destruct (levels !! i) as [prev|] eqn:Hprev.
    + destruct (Hchain i prev level Hprev Hi F x HF Hx) as (F' & HF' & Hx').
      by apply (IH prev F').
    + apply lookup_ge_None in Hprev. apply lookup_lt_Some in Hi. lia.
Qed.

Lemma lcofi_returns_no_transaction (ms : Qc)
    (levels : list (gmap (gset string) nat)) :
  lcofi_returns [] ms levels → levels = [∅].
Proof.
  intros Hrun. apply (lcofi_returns_deterministic [] ms); [done|].
  exists 0. apply lcofi_no_transaction.
Qed.

(** X5. The list returned by [lcofi] always holds level 1, and every
    further level in it is not empty.  With [d] the number of distinct
    items of level 1, the list has at most [max 1 d] levels and the body of
    the loop runs at most [d] times. *)
Theorem lcofi_levels_bounded (T : list (gset string)) (min_support : Qc)
    (levels : list (gmap (gset string) nat))
    (Hrun : lcofi_returns T min_support levels) :
  ∃ first,
    levels !! 0 = Some first
    ∧ (∀ i level, levels !! (S i) = Some level → level ≠ ∅)
    ∧ length levels ≤ 1 `max` size (item_universe first)
    ∧ ∀ fuel, size (item_universe first) ≤ fuel →
              lcofi fuel T min_support = Some (inr levels).
Proof.
  destruct (decide (T = [])) as [->|HT].
  { apply lcofi_returns_no_transaction in Hrun as ->. exists ∅.
    split; [done|]. split; [by intros i level Hi|]. split; [simpl; lia|].
    intros fuel _. apply lcofi_no_transaction. }
  destruct (lcofi_iterated T min_support levels Hrun)
    as (Hstart & Hstep & _).
  destruct Hstart as (first & Hfirst & Hcount). exists first.
  split; [done|]. split; [|split].
  - intros i level Hi. destruct (levels !! i) as [prev|] eqn:Hprev.
    + by destruct (Hstep i prev level Hprev Hi).
    + apply lookup_ge_None in Hprev. apply lookup_lt_Some in Hi. lia.
  - destruct (decide (length levels ≤ 1)) as [|Hlen]; [lia|].
    destruct (levels !! (length levels - 1)) as [level|] eqn:Hlevel;
      [|apply lookup_ge_None in Hlevel; lia].
    assert (Hne : level ≠ ∅).
    { destruct (levels !! (length levels - 2)) as [prev|] eqn:Hprev;
        [|apply lookup_ge_None in Hprev; lia].
      apply (Hstep (length levels - 2) prev level Hprev).
      by replace (S (length levels - 2)) with (length levels - 1) by lia. }
    destruct (map_choose level Hne) as (F & c & HF).
    destruct (lcofi_sound T min_support levels HT Hrun) as [Hsound _].
    destruct (Hsound _ level Hlevel F c HF) as (Hsize & _).
    assert (Hsub : F ⊆ item_universe first).
    { apply (level_items_in_first T min_support levels first Hrun Hfirst
               (length levels - 1) level); eauto. }
    apply subseteq_size in Hsub. lia.
  - intros fuel Hfuel. unfold lcofi, lcofi_with. rewrite Hcount.
    destruct (decide (first = ∅)) as [->|Hne].
    + rewrite lcofi_loop_empty. destruct Hrun as [fuel' Hrun].
      unfold lcofi, lcofi_with in Hrun. rewrite Hcount in Hrun.
      by rewrite lcofi_loop_empty in Hrun.
    + destruct (lcofi_loop_terminates T min_support HT fuel first [first] 2)
        as [levels' Hrun'].
      { destruct (map_choose first Hne) as (F & c & HF).
        assert (HF' : F ∈ single_items (build_graph T)).
        { apply (first_level_keys T min_support levels first F HT); eauto.
          by exists first. }
        apply elem_of_seed in HF' as (x & -> & _).
        assert (0 < size (item_universe first)); [|lia].
        assert (Hx : {[x]} ⊆ item_universe first).
        { intros y ->%elem_of_singleton. apply elem_of_item_universe.
          exists {[x]}. split; [eauto | by apply elem_of_singleton]. }
        apply subseteq_size in Hx. rewrite size_singleton in Hx. lia. }
      rewrite Hrun'. do 2 f_equal.
      apply (lcofi_returns_deterministic T min_support); [|done].
      exists fuel. unfold lcofi, lcofi_with. by rewrite Hcount.
Qed.

Lemma lcofi_levels_bounded_witness :
  lcofi_returns Example.transactions Example.min_support example_levels
  ∧ ∃ first,
      example_levels !! 0 = Some first
      ∧ (∀ i level, example_levels !! (S i) = Some level → level ≠ ∅)
      ∧ length example_levels ≤ 1 `max` size (item_universe first)
      ∧ ∀ fuel, size (item_universe first) ≤ fuel →
                lcofi fuel Example.transactions Example.min_support
                = Some (inr example_levels).
Proof.
  split; [exact example_lcofi_returns|].
  exact (lcofi_levels_bounded Example.transactions Example.min_support
                              example_levels example_lcofi_returns).
Defined.

(** ** Zero counts and the sign of the threshold *)

Lemma relative_support_zero (T : list (gset string)) :
  relative_support 0 T = 0%Qc.
Proof.
  unfold relative_support, Qcdiv.
  change (Qc_of_Z (Z.of_nat 0)) with (Qc_of_Z 0).
  rewrite Z2Qc_inj_0. apply Qcmult_0_l.
Qed.

(** X6. On a non-empty transaction list, [count_support] drops the
    candidates that no transaction contains exactly when the threshold is
    positive: with [0 < min_support] every retained count is at least 1,
    and with [min_support ≤ 0] every candidate is retained, also those of
    count 0. *)
Theorem count_support_zero_counts (C : gset (gset string))
    (T : list (gset string)) (min_support : Qc) (HT : T ≠ []) :
  ∃ m, count_support C T min_support = inr m
       ∧ ((0 < min_support)%Qc →
          ∀ S c, m !! S = Some c → 1 ≤ c ∧ ∃ t, t ∈ T ∧ S ⊆ t)
       ∧ ((min_support ≤ 0)%Qc → dom m = C).
Proof.
  destruct (count_support_spec C T min_support HT) as (m & Hrun & Hm).
  exists m. split; [done|]. split.
  - intros Hpos S c Hc. rewrite Hm in Hc.
    destruct (decide (_ ∧ _)) as [[_ Hle]|_]; [|done]. injection Hc as <-.
    assert (Hc : containment_count S T ≠ 0).
    { intros H0. rewrite H0, relative_support_zero in Hle.
      by apply Qcle_not_lt in Hle. }
    split; [lia|]. unfold containment_count in Hc.
    destruct (filter (λ t, S ⊆ t) T) as [|t l] eqn:Hf; [done|].
    assert (Ht : t ∈ filter (λ t, S ⊆ t) T) by (rewrite Hf; left).
    apply list_elem_of_filter in Ht as [Hsub Ht]. by exists t.
  - intros Hneg. apply set_eq. intros S. rewrite elem_of_dom, Hm.
    destruct (decide (_ ∧ _)) as [[HS _]|Hn].
    + split; [done | eauto].
    + split; [by intros [c Hc]|]. intros HS. exfalso. apply Hn.
      split; [done|]. eapply Qcle_trans; [exact Hneg|].
      rewrite <- (relative_support_zero T).
      apply relative_support_mono; [done | lia].
Qed.

Lemma count_support_zero_counts_witness :
  Example.transactions ≠ []
  ∧ ∃ m, count_support {[ {["A"]}; {["E"]} ]} Example.transactions 0%Qc
         = inr m
         ∧ ((0 < 0)%Qc →
            ∀ S c, m !! S = Some c
                   → 1 ≤ c ∧ ∃ t, t ∈ Example.transactions ∧ S ⊆ t)
         ∧ ((0 ≤ 0)%Qc → dom m = {[ {["A"]}; {["E"]} ]}).
Proof.
  split; [discriminate|].
  apply (count_support_zero_counts
           {[ {["A"]}; {["E"]} ]} Example.transactions 0%Qc).
  discriminate.
Defined.

(** ** The order of the transactions *)

Lemma containment_count_Permutation (S : gset string)
    (T T' : list (gset string)) :
  T ≡ₚ T' → containment_count S T = containment_count S T'.
Proof. intros HP. unfold containment_count. by rewrite HP. Qed.

Lemma relative_support_Permutation (c : nat) (T T' : list (gset string)) :
  T ≡ₚ T' → relative_support c T = relative_support c T'.
Proof.
  intros HP. unfold relative_support. by rewrite (Permutation_length HP).
Qed.

Lemma count_support_Permutation (C : gset (gset string))
    (T T' : list (gset string)) (ms : Qc) :
  T ≡ₚ T' → count_support C T ms = count_support C T' ms.
Proof.
  intros HP. destruct (decide (T = [])) as [->|HT].
  { apply Permutation_nil_l in HP. by subst. }
  assert (HT' : T' ≠ []).
  { intros ->. by apply Permutation_nil_r in HP. }
  destruct (count_support_spec C T ms HT) as (m & -> & Hm).
  destruct (count_support_spec C T' ms HT') as (m' & -> & Hm').
  f_equal. apply map_eq. intros S. rewrite Hm, Hm'.
  rewrite (containment_count_Permutation S T T' HP).
  by rewrite (relative_support_Permutation _ T T' HP).
Qed.

Lemma seed_Permutation (T T' : list (gset string)) :
  T ≡ₚ T' → single_items (build_graph T) = single_items (build_graph T').
Proof.
  intros HP. apply set_eq. intros S. rewrite !elem_of_seed.
  split; intros (x & -> & (t & Ht & Hx) & Hpre); exists x;
    (split; [done|]); (split; [|done]); exists t; (split; [|done]).
  - by rewrite <- HP.
  - by rewrite HP.
Qed.

Lemma lcofi_loop_Permutation (T T' : list (gset string)) (ms : Qc)
    (fuel : nat) (freq : gmap (gset string) nat)
    (all : list (gmap (gset string) nat)) (k : nat) :
  T ≡ₚ T' →
  lcofi_loop (λ itemsets transactions,
                count_support itemsets transactions ms) T fuel freq all k
  = lcofi_loop (λ itemsets transactions,
                  count_support itemsets transactions ms) T' fuel freq all k.
Proof.
  intros HP. revert freq all k.
  induction fuel as [|fuel IH]; intros freq all k.
  - simpl. by destruct (decide (freq = ∅)).
  - destruct (decide (freq = ∅)) as [->|Hne].
    + by rewrite !lcofi_loop_empty.
    + rewrite !lcofi_loop_step by done.
      rewrite (count_support_Permutation _ T T' ms HP).
      destruct (count_support _ T' ms) as [e|freq']; [done|]. apply IH.
Qed.

(** X7. The order of the transactions does not matter: for two
    transaction lists that are permutations of each other, [count_support]
    returns the same mapping (or fails alike) for the same candidates, and
    [lcofi] returns the same levels, although the transaction nodes of the
    incidence graph are numbered by position. *)
Theorem mining_ignores_transaction_order (T T' : list (gset string))
    (min_support : Qc) (HP : T ≡ₚ T') :
  (∀ C, count_support C T min_support = count_support C T' min_support)
  ∧ (∀ fuel, lcofi fuel T min_support = lcofi fuel T' min_support).
Proof.
  split.
  - intros C. by apply count_support_Permutation.
  - intros fuel. unfold lcofi, lcofi_with.
    rewrite (seed_Permutation T T' HP).
    rewrite (count_support_Permutation _ T T' min_support HP).
    destruct (count_support _ T' min_support) as [e|freq]; [done|].
    by apply lcofi_loop_Permutation.
Qed.

Lemma mining_ignores_transaction_order_witness :
  ([ {["A"; "B"]}; {["B"]} ] : list (gset string))
    ≡ₚ [ {["B"]}; {["A"; "B"]} ]
  ∧ (∀ C, count_support C [ {["A"; "B"]}; {["B"]} ] (Q2Qc (3 # 5))
          = count_support C [ {["B"]}; {["A"; "B"]} ] (Q2Qc (3 # 5)))
  ∧ (∀ fuel, lcofi fuel [ {["A"; "B"]}; {["B"]} ] (Q2Qc (3 # 5))
             = lcofi fuel [ {["B"]}; {["A"; "B"]} ] (Q2Qc (3 # 5))).
Proof.
  assert (HP : ([ {["A"; "B"]}; {["B"]} ] : list (gset string))
                 ≡ₚ [ {["B"]}; {["A"; "B"]} ]).
  { apply Permutation_swap. }
  split; [exact HP|].
  exact (mining_ignores_transaction_order _ _ (Q2Qc (3 # 5)) HP).
Defined.

(** ** The edges of the incidence graph *)

Lemma elem_of_neighbours_add_edge (u v : string) (G : Graph) (x n : string) :
  n ∈ neighbours (adj (add_edge u v G)) x
  ↔ n ∈ neighbours (adj G) x ∨ (x = u ∧ n = v) ∨ (x = v ∧ n = u).
Proof.
  unfold add_edge, neighbours. simpl.
  destruct (decide (v = x)) as [->|Hv].
  - rewrite lookup_insert_eq. simpl.
    destruct (decide (u = x)) as [->|Hu].
    + rewrite lookup_insert_eq. simpl.
      rewrite !elem_of_union, !elem_of_singleton. naive_solver.
    + rewrite lookup_insert_ne by done.
      rewrite !elem_of_union, !elem_of_singleton. naive_solver.
  - rewrite lookup_insert_ne by done.
    destruct (decide (u = x)) as [->|Hu].
    + rewrite lookup_insert_eq. simpl.
      rewrite !elem_of_union, !elem_of_singleton. naive_solver.
    + rewrite lookup_insert_ne by done. naive_solver.
Qed.

Lemma elem_of_neighbours_add_items (tn : string) (items : list string)
    (G : Graph) (x n : string) :
  n ∈ neighbours (adj (foldl (λ G item, add_edge tn item G) G items)) x
  ↔ n ∈ neighbours (adj G) x
    ∨ (x = tn ∧ n ∈ items) ∨ (n = tn ∧ x ∈ items).
Proof.
  revert G. induction items as [|y items IH]; intros G.
  - simpl. rewrite !elem_of_nil. naive_solver.
  - simpl. rewrite IH, elem_of_neighbours_add_edge, !elem_of_cons.
    naive_solver.
Qed.

Lemma elem_of_neighbours_build_from (l : list (nat * gset string))
    (G : Graph) (x n : string) :
  n ∈ neighbours
        (adj (foldl (λ G '(i, transaction),
                       foldl (λ G item, add_edge (transaction_node i) item G)
                             G (elements transaction)) G l)) x
  ↔ n ∈ neighbours (adj G) x
    ∨ ∃ i t, (i, t) ∈ l
             ∧ ((x = transaction_node i ∧ n ∈ t)
                ∨ (n = transaction_node i ∧ x ∈ t)).
Proof.
  revert G. induction l as [|[i t] l IH]; intros G.
  - simpl. split; [by left|]. intros [?|(i & t & Hin & _)]; [done|].
    by apply elem_of_nil in Hin.
  - simpl. rewrite IH, elem_of_neighbours_add_items.
    rewrite !elem_of_elements. split.
    + intros [[Hn | Hn] | (i' & t' & Hin & Hn)].
      * by left.
      * right. exists i, t. split; [left | done].
      * right. exists i', t'. split; [by right | done].
    + intros [Hn | (i' & t' & Hin & Hn)]; [by left; left|].
      apply elem_of_cons in Hin as [[= -> ->] | Hin].
      * left. by right.
      * right. by exists i', t'.
Qed.

Lemma elem_of_neighbours_build_graph (T : list (gset string))
    (x n : string) :
  n ∈ neighbours (adj (build_graph T)) x
  ↔ ∃ i t, T !! i = Some t
           ∧ ((x = transaction_node i ∧ n ∈ t)
              ∨ (n = transaction_node i ∧ x ∈ t)).
Proof.
  unfold build_graph. rewrite elem_of_neighbours_build_from. split.
  - intros [Hn | (i & t & Hin & Hn)].
    + unfold neighbours in Hn. simpl in Hn.
      rewrite lookup_empty in Hn. by apply elem_of_empty in Hn.
    + apply elem_of_lookup_imap in Hin as (j & t' & [= -> ->] & Hj).
      by exists j, t'.
  - intros (i & t & Hi & Hn). right. exists i, t. split; [|done].
    apply elem_of_lookup_imap. by exists i, t.
Qed.

(** X8. In the graph that [lcofi] builds, two nodes are adjacent exactly
    when one is the node [Transaction_i] of a transaction and the other is
    an item of that transaction; adjacency is symmetric. *)
Theorem build_graph_edges (T : list (gset string)) (x n : string) :
  (n ∈ neighbours (adj (build_graph T)) x
   ↔ ∃ i t, T !! i = Some t
            ∧ ((x = transaction_node i ∧ n ∈ t)
               ∨ (n = transaction_node i ∧ x ∈ t)))
  ∧ (n ∈ neighbours (adj (build_graph T)) x
     ↔ x ∈ neighbours (adj (build_graph T)) n).
Proof.
  split; [apply elem_of_neighbours_build_graph|].
  rewrite !elem_of_neighbours_build_graph.
  split; intros (i & t & Hi & [H|H]); exists i, t; (split; [done|]);
    [by right | by left | by right | by left].
Qed.

(** ** The degree of an item node *)

Lemma transaction_node_inj (i j : nat) :
  transaction_node i = transaction_node j → i = j.
Proof.
  unfold transaction_node. intros H.
  apply (inj (String.app "Transaction_")) in H. by apply (inj pretty) in H.
Qed.

Lemma item_neighbours (T : list (gset string)) (x n : string) :
  startswith x "Transaction" = false →
  n ∈ neighbours (adj (build_graph T)) x
  ↔ ∃ i t, T !! i = Some t ∧ x ∈ t ∧ n = transaction_node i.
Proof.
  intros Hpre. rewrite elem_of_neighbours_build_graph. split.
  - intros (i & t & Hi & [[-> _] | [-> Hx]]).
    + by rewrite startswith_transaction_node in Hpre.
    + by exists i, t.
  - intros (i & t & Hi & Hx & ->). exists i, t. split; [done | by right].
Qed.

Lemma item_neighbours_size (T : list (gset string)) (x : string) :
  startswith x "Transaction" = false →
  size (neighbours (adj (build_graph T)) x) = containment_count {[x]} T.
Proof.
  intros Hpre. induction T as [|t T IH] using rev_ind.
  - apply size_empty_iff. intros n. rewrite item_neighbours by done.
    split; [|by intros ?%elem_of_empty]. by intros (i & t & Hi & _).
  - assert (Hset : neighbours (adj (build_graph (T ++ [t]))) x
                   = neighbours (adj (build_graph T)) x
                     ∪ (if decide (x ∈ t)
                        then {[transaction_node (length T)]} else ∅)).
    { apply set_eq. intros n.
      rewrite elem_of_union, !item_neighbours by done. split.
      - intros (i & t' & Hi & Hx & ->).
        apply lookup_snoc_Some in Hi as [[Hlt Hi] | [-> ->]].
        + left. by exists i, t'.
        + right. rewrite decide_True by done. by apply elem_of_singleton.
      - intros [(i & t' & Hi & Hx & ->) | Hn].
        + exists i, t'. split; [|done]. by apply lookup_app_l_Some.
        + destruct (decide (x ∈ t)) as [Hx|]; [|by apply elem_of_empty in Hn].
          apply elem_of_singleton in Hn as ->. exists (length T), t.
          split; [|done]. apply lookup_snoc_Some. by right. }
    rewrite Hset, size_union.
    + rewrite IH. unfold containment_count.
      rewrite filter_app, length_app. f_equal.
      rewrite filter_cons, filter_nil.
      destruct (decide (x ∈ t)) as [Hx|Hx].
      * rewrite decide_True by (by apply singleton_subseteq_l).
        by rewrite size_singleton.
      * rewrite decide_False by (by rewrite singleton_subseteq_l).
        by rewrite size_empty.
    + intros n Hn Hn'.
      destruct (decide (x ∈ t)); [|by apply elem_of_empty in Hn'].
      apply elem_of_singleton in Hn' as ->.
      apply item_neighbours in Hn as (i & t' & Hi & _ & Heq); [|done].
      apply transaction_node_inj in Heq as <-.
      apply lookup_lt_Some in Hi. lia.
Qed.

(** X9. In the graph that [lcofi] builds, an item that occurs in some
    transaction and whose label does not start with [Transaction] is a
    node, and its degree is the number of transactions that contain it,
    that is the support count of its singleton, which is at least 1. *)
Theorem item_degree_is_support_count (T : list (gset string)) (x : string)
    (Hocc : ∃ t, t ∈ T ∧ x ∈ t)
    (Hpre : startswith x "Transaction" = false) :
  x ∈ nodes (build_graph T)
  ∧ degree (build_graph T) x = containment_count {[x]} T
  ∧ 1 ≤ degree (build_graph T) x.
Proof.
  assert (Hseed : {[x]} ∈ single_items (build_graph T)).
  { apply elem_of_seed. by exists x. }
  apply elem_of_single_items in Hseed as (y & Hy & Hdom & Hdeg & _).
  apply singleton_inj in Hy as <-. split; [|split; [|lia]].
  - unfold nodes. apply elem_of_dom in Hdom as [nbrs Hn].
    apply list_elem_of_fmap. exists (x, nbrs). split; [done|].
    by apply elem_of_map_to_list.
  - unfold degree. rewrite item_neighbours_size by done.
    rewrite decide_False; [lia|].
    intros (i & t & _ & _ & ->)%item_neighbours; [|done].
    by rewrite startswith_transaction_node in Hpre.
Qed.

Lemma item_degree_is_support_count_witness :
  (∃ t, t ∈ Example.transactions ∧ "A" ∈ t)
  ∧ startswith "A" "Transaction" = false
  ∧ "A" ∈ nodes (build_graph Example.transactions)
  ∧ degree (build_graph Example.transactions) "A"
    = containment_count {["A"]} Example.transactions
  ∧ 1 ≤ degree (build_graph Example.transactions) "A".
Proof.
  assert (Hocc : ∃ t, t ∈ Example.transactions ∧ "A" ∈ t).
  { exists {["A"; "C"]}. split.
    - right. left.
    - apply elem_of_union_l, elem_of_singleton. reflexivity. }
  split; [exact Hocc|]. split; [reflexivity|].
  exact (item_degree_is_support_count Example.transactions "A" Hocc
                                      eq_refl).
Defined.

(** ** Flattening the levels *)

Lemma flatten_snoc (levels : list (gmap (gset string) nat))
    (level : gmap (gset string) nat) :
  flatten (levels ++ [level]) = level ∪ flatten levels.
Proof. unfold flatten. by rewrite foldl_app. Qed.

Lemma lookup_flatten (levels : list (gmap (gset string) nat))
    (F : gset string) (c : nat) :
  flatten levels !! F = Some c
  ↔ ∃ i level,
      levels !! i = Some level ∧ level !! F = Some c
      ∧ ∀ j level', i < j → levels !! j = Some level' → level' !! F = None.
Proof.
  induction levels as [|last levels IH] using rev_ind.
  - unfold flatten. simpl. rewrite lookup_empty. split; [done|].
    by intros (i & level & Hi & _).
  - rewrite flatten_snoc, lookup_union_Some_raw, IH. split.
    + intros [HF | (Hnone & i & level & Hi & HF & Hlater)].
      * exists (length levels), last. split.
        { apply lookup_snoc_Some. by right. }
        split; [done|]. intros j level' Hj Hlook.
        apply lookup_lt_Some in Hlook. rewrite length_app in Hlook.
        simpl in Hlook. lia.
      * exists i, level. split; [by apply lookup_app_l_Some|].
        split; [done|]. intros j level' Hj Hlook.
        apply lookup_snoc_Some in Hlook as [[_ Hlook] | [_ <-]]; [|done].
        by apply (Hlater j).
    + intros (i & level & Hi & HF & Hlater).
      apply lookup_snoc_Some in Hi as [[Hlt Hi] | [-> ->]]; [|by left].
      right. split.
      * apply (Hlater (length levels)); [done|].
        apply lookup_snoc_Some. by right.
      * exists i, level. split; [done|]. split; [done|].
        intros j level' Hj Hlook. apply (Hlater j); [done|].
        by apply lookup_app_l_Some.
Qed.

(** X10. [flat_itemsets], the dictionary that [generate_association_rules]
    builds with [update] over the levels, maps an itemset to the count it
    has in the last level that holds it: an entry of an earlier level is
    replaced by an entry of a later level for the same itemset, and no
    other entry is lost or added. *)
Theorem flatten_later_level_wins (levels : list (gmap (gset string) nat))
    (F : gset string) :
  (∀ c, flatten levels !! F = Some c
        ↔ ∃ i level,
            levels !! i = Some level ∧ level !! F = Some c
            ∧ ∀ j level', i < j → levels !! j = Some level' →
                          level' !! F = None)
  ∧ (is_Some (flatten levels !! F)
     ↔ ∃ i level, levels !! i = Some level ∧ is_Some (level !! F)).
Proof.
  split; [intros c; apply lookup_flatten|]. split.
  - intros [c (i & level & Hi & HF & _)%lookup_flatten]. exists i, level. eauto.
  - intros (i & level & Hi & HF).
    induction levels as [|last levels IH] using rev_ind in i, Hi |- *;
      [done|].
    rewrite flatten_snoc, lookup_union_is_Some.
    apply lookup_snoc_Some in Hi as [[_ Hi] | [_ ->]]; [|by left].
    right. by apply (IH i).
Qed.

(** X11. On the levels that [lcofi] returns for a non-empty transaction
    list, flattening loses nothing: [flat_itemsets] maps [F] to [c] if and
    only if [F] is a non-empty set of items that occur in transactions and
    have labels that do not start with [Transaction], [c] is the number of
    transactions that contain [F], and [c / N] reaches [min_support]. *)
Theorem flatten_lcofi_exact (T : list (gset string)) (min_support : Qc)
    (levels : list (gmap (gset string) nat)) (F : gset string) (c : nat)
    (HT : T ≠ []) (Hrun : lcofi_returns T min_support levels) :
  flatten levels !! F = Some c
  ↔ F ≠ ∅
    ∧ (∀ x, x ∈ F →
            (∃ t, t ∈ T ∧ x ∈ t) ∧ startswith x "Transaction" = false)
    ∧ c = containment_count F T
    ∧ (min_support ≤ relative_support c T)%Qc.
Proof.
  rewrite lookup_flatten. split.
  - intros (i & level & Hi & HF & _).
    destruct (proj1 (lcofi_exact T min_support levels HT Hrun i F c))
      as (Hsize & Hseed & Hc & Hle); [by exists level|].
    split; [|split; [|done]].
    + intros ->. by rewrite size_empty in Hsize.
    + intros x Hx. apply seed_item_iff. by apply Hseed.
  - intros (Hne & Hseed & Hc & Hle).
    assert (Hpos : size F ≠ 0).
    { by rewrite size_empty_iff, leibniz_equiv_iff. }
    destruct (proj2 (lcofi_exact T min_support levels HT Hrun
                                 (size F - 1) F c))
      as (level & Hi & HF).
    { split; [lia|]. split; [|done].
      intros x Hx. apply seed_item_iff. by apply Hseed. }
    exists (size F - 1), level. split; [done|]. split; [done|].
    intros j level' Hj Hlook.
    destruct (level' !! F) as [c'|] eqn:HF'; [|done]. exfalso.
    destruct (proj1 (lcofi_exact T min_support levels HT Hrun j F c'))
      as (Hsize & _); [by exists level'|]. lia.
Qed.

Lemma flatten_lcofi_exact_witness :
  Example.transactions ≠ []
  ∧ lcofi_returns Example.transactions Example.min_support example_levels
  ∧ (flatten example_levels !! ({["C"; "A"]} : gset string) = Some 3
     ↔ ({["C"; "A"]} : gset string) ≠ ∅
       ∧ (∀ x, x ∈ ({["C"; "A"]} : gset string) →
               (∃ t, t ∈ Example.transactions ∧ x ∈ t)
               ∧ startswith x "Transaction" = false)
       ∧ 3 = containment_count {["C"; "A"]} Example.transactions
       ∧ (Example.min_support
          ≤ relative_support 3 Example.transactions)%Qc).
Proof.
  assert (HT : Example.transactions ≠ []) by discriminate.
  split; [exact HT|]. split; [exact example_lcofi_returns|].
  exact (flatten_lcofi_exact Example.transactions Example.min_support
           example_levels {["C"; "A"]} 3 HT example_lcofi_returns).
Defined.

(** ** Division before the rules are derived *)

Lemma flatten_is_Some (levels : list (gmap (gset string) nat))
    (i : nat) (level : gmap (gset string) nat) (F : gset string) :
  levels !! i = Some level → is_Some (level !! F) →
  is_Some (flatten levels !! F).
Proof.
  revert i. induction levels as [|last levels IH] using rev_ind;
    intros i Hi HF; [done|].
  rewrite flatten_snoc, lookup_union_is_Some.
  apply lookup_snoc_Some in Hi as [[_ Hi] | [_ ->]]; [|by left].
  right. by apply (IH i).
Qed.

(** X12. With an empty transaction list, [generate_association_rules]
    ends in [ZeroDivisionError] as soon as one level holds an itemset: the
    supports are divided by the number of transactions before the rules
    are derived. *)
Theorem generate_association_rules_no_transaction
    (levels : list (gmap (gset string) nat)) (min_confidence : Qc)
    (i : nat) (level : gmap (gset string) nat) (F : gset string)
    (Hi : levels !! i = Some level) (HF : is_Some (level !! F)) :
  generate_association_rules levels [] min_confidence
  = inl ZeroDivisionError.
Proof.
  unfold generate_association_rules.
  destruct (flatten_is_Some levels i level F Hi HF) as [c Hc].
  destruct (map_to_list (flatten levels)) as [|[F' c'] l] eqn:Hl.
  - apply map_to_list_empty_iff in Hl. rewrite Hl in Hc.
    by rewrite lookup_empty in Hc.
  - done.
Qed.

Lemma generate_association_rules_no_transaction_witness :
  example_levels !! 0
  = Some ({[ {["C"]} := 5; {["A"]} := 3; {["B"]} := 3 ]}
          : gmap (gset string) nat)
  ∧ is_Some (({[ {["C"]} := 5; {["A"]} := 3; {["B"]} := 3 ]}
              : gmap (gset string) nat) !! ({["C"]} : gset string))
  ∧ generate_association_rules example_levels [] (Q2Qc (3 # 5))
    = inl ZeroDivisionError.
Proof.
  assert (Hi : example_levels !! 0
               = Some ({[ {["C"]} := 5; {["A"]} := 3; {["B"]} := 3 ]}
                       : gmap (gset string) nat)) by reflexivity.
  assert (HF : is_Some (({[ {["C"]} := 5; {["A"]} := 3; {["B"]} := 3 ]}
                         : gmap (gset string) nat)
                          !! ({["C"]} : gset string))).
  { exists 5. vm_compute. reflexivity. }
  split; [exact Hi|]. split; [exact HF|].
  exact (generate_association_rules_no_transaction
           example_levels (Q2Qc (3 # 5)) 0 _ {["C"]} Hi HF).
Defined.

(** ** The threshold of the example notebook *)

(** X13. In [LCOFI_example.ipynb] the [min_support] argument of [lcofi] has
    no effect: whatever is passed, the result is the one for the
    notebook-level [min_support = 0.6], and on a non-empty transaction
    list the stored counts reach that threshold, not the one passed. *)
Theorem example_lcofi_threshold (fuel : nat) (T : list (gset string))
    (min_support : Qc) (levels : list (gmap (gset string) nat))
    (HT : T ≠ [])
    (Hrun : Example.lcofi fuel T min_support = Some (inr levels)) :
  (∀ min_support', Example.lcofi fuel T min_support' = Some (inr levels))
  ∧ ∀ i level F c,
      levels !! i = Some level → level !! F = Some c →
      (Example.min_support ≤ relative_support c T)%Qc.
Proof.
  split; [by intros min_support'|].
  intros i level F c Hi HF.
  assert (Hret : lcofi_returns T Example.min_support levels).
  { by exists fuel. }
  destruct (lcofi_sound T Example.min_support levels HT Hret) as [Hsound _].
  by destruct (Hsound i level Hi F c HF) as (_ & _ & Hle).
Qed.

Lemma example_lcofi_threshold_witness :
  Example.transactions ≠ []
  ∧ Example.lcofi 2 Example.transactions (Q2Qc (9 # 10))
    = Some (inr example_levels)
  ∧ (∀ min_support',
       Example.lcofi 2 Example.transactions min_support'
       = Some (inr example_levels))
  ∧ ∀ i level F c,
      example_levels !! i = Some level → level !! F = Some c →
      (Example.min_support ≤ relative_support c Example.transactions)%Qc.
Proof.
  assert (HT : Example.transactions ≠ []) by discriminate.
  assert (Hrun : Example.lcofi 2 Example.transactions (Q2Qc (9 # 10))
                 = Some (inr example_levels)).
  { apply (bool_decide_eq_true_1
             (Example.lcofi 2 Example.transactions (Q2Qc (9 # 10))
              = Some (inr example_levels))).
    vm_compute. reflexivity. }
  split; [exact HT|]. split; [exact Hrun|].
  exact (example_lcofi_threshold 2 Example.transactions (Q2Qc (9 # 10))
                                 example_levels HT Hrun).
Defined.

(** ** The number of candidates *)

Lemma length_combinations {A} (pool : list A) (r : nat) :
  length (combinations pool r) = choose (length pool) r.
Proof.
  revert r. induction pool as [|x pool IH]; intros [|r]; simpl; try done.
  by rewrite length_app, length_fmap, !IH.
Qed.

Lemma NoDup_combinations_sets (l : list string) (r : nat) :
  NoDup l →
  NoDup ((λ x, list_to_set x) <$> combinations l r : list (gset string)).
Proof.
  intros Hnd. revert r.
  induction Hnd as [|x l Hx Hnd IH]; intros [|r]; simpl;
    try apply NoDup_singleton; try apply NoDup_nil_2.
  rewrite fmap_app. apply NoDup_app. split; [|split].
  - rewrite <- list_fmap_compose.
    change ((λ x0 : list string, list_to_set x0) ∘ cons x)
      with ((λ s : gset string, {[x]} ∪ s) ∘ (λ x0, list_to_set x0)).
    rewrite list_fmap_compose. apply NoDup_fmap_2_strong; [|apply IH].
    intros S1 S2 H1 H2 Heq.
    apply list_elem_of_fmap in H1 as (c1 & -> & Hc1).
    apply list_elem_of_fmap in H2 as (c2 & -> & Hc2).
    apply elem_of_combinations in Hc1 as [Hs1 _].
    apply elem_of_combinations in Hc2 as [Hs2 _].
    assert (Hx1 : x ∉ (list_to_set c1 : gset string)).
    { rewrite elem_of_list_to_set. intros ?. apply Hx.
      by eapply elem_of_sublist. }
    assert (Hx2 : x ∉ (list_to_set c2 : gset string)).
    { rewrite elem_of_list_to_set. intros ?. apply Hx.
      by eapply elem_of_sublist. }
    apply set_eq. intros y. split; intros Hy.
    + assert (y ∈ ({[x]} ∪ list_to_set c2 : gset string)) as Hy'.
      { rewrite <- Heq. apply elem_of_union. by right. }
      apply elem_of_union in Hy' as [->%elem_of_singleton|]; done.
    + assert (y ∈ ({[x]} ∪ list_to_set c1 : gset string)) as Hy'.
      { rewrite Heq. apply elem_of_union. by right. }
      apply elem_of_union in Hy' as [->%elem_of_singleton|]; done.
  - intros S H1 H2.
    apply list_elem_of_fmap in H1 as (c1 & -> & Hc1).
    apply list_elem_of_fmap in Hc1 as (c1' & -> & Hc1).
    apply list_elem_of_fmap in H2 as (c2 & Heq & Hc2).
    apply elem_of_combinations in Hc2 as [Hs2 _].
    apply Hx. apply (elem_of_sublist c2); [|done].
    apply (elem_of_list_to_set (C:=gset string)). rewrite <- Heq.
    rewrite list_to_set_cons. apply elem_of_union. left.
    by apply elem_of_singleton.
  - apply IH.
Qed.

(** X14. The candidates are not pruned: [generate_candidates] returns
    exactly [choose n k] candidates of size [k], where [n] is the number of
    distinct items in the itemsets of the previous level. *)
Theorem generate_candidates_count (P : gmap (gset string) nat) (k : nat) :
  size (generate_candidates P k) = choose (size (item_universe P)) k.
Proof.
  unfold generate_candidates.
  rewrite size_list_to_set
    by apply NoDup_combinations_sets, (NoDup_elements (item_universe P)).
  by rewrite length_fmap, length_combinations.
Qed.

(** ** Preprocessing *)

Lemma prefix_cons (a b : ascii) (p s : string) :
  String.prefix (String a p) (String b s)
  = if ascii_dec a b then String.prefix p s else false.
Proof. reflexivity. Qed.

(** A prefix without the separator does not reach beyond it. *)
Lemma prefix_before_separator (sep : ascii) (p : string) :
  Forall (λ a, a ≠ sep) (String.list_ascii_of_string p) →
  ∀ col r, String.prefix p (col +:+ String sep r) = true →
           String.prefix p col = true.
Proof.
  induction p as [|a p IH]; intros Hp col r H; [by destruct col|].
  simpl in Hp. apply Forall_cons in Hp as [Ha Hp].
  destruct col as [|b col].
  - change ("" +:+ String sep r) with (String sep r) in H.
    rewrite prefix_cons in H. by destruct (ascii_dec a sep).
  - change (String b col +:+ String sep r)
      with (String b (col +:+ String sep r)) in H.
    rewrite prefix_cons in H |- *.
    destruct (ascii_dec a b); [|done]. by apply (IH Hp col r).
Qed.

Section preprocessing_facts.
Context {value : Type}.
Variable format : value → string.

Lemma item_label_unprefixed (col : string) (v : value) :
  startswith col "Transaction" = false →
  startswith (item_label format col v) "Transaction" = false.
Proof.
  intros Hcol.
  destruct (startswith (item_label format col v) "Transaction") eqn:H;
    [|done].
  unfold startswith, item_label in *.
  apply (prefix_before_separator "_"%char) in H; [congruence|].
  simpl. repeat constructor; discriminate.
Qed.

Lemma elem_of_row_to_transaction (row : list (string * option value))
    (x : string) :
  x ∈ row_to_transaction format row
  ↔ ∃ col v, (col, Some v) ∈ row ∧ x = item_label format col v.
Proof.
  unfold row_to_transaction.
  assert (Hgen : ∀ acc : gset string,
            x ∈ foldl (λ transaction '(col, cell),
                         match cell with
                         | Some v => {[item_label format col v]} ∪ transaction
                         | None => transaction
                         end) acc row
            ↔ x ∈ acc
              ∨ ∃ col v, (col, Some v) ∈ row ∧ x = item_label format col v).
  { induction row as [|[col [v|]] row IH]; intros acc; simpl.
    - split; [by left|]. intros [?|(col & v & Hin & _)]; [done|].
      by apply elem_of_nil in Hin.
    - rewrite IH, elem_of_union, elem_of_singleton. split.
      + intros [[-> | Hacc] | (col' & v' & Hin & ->)].
        * right. exists col, v. split; [left | done].
        * by left.
        * right. exists col', v'. split; [by right | done].
      + intros [Hacc | (col' & v' & Hin & ->)]; [by left; right|].
        apply elem_of_cons in Hin as [[= -> ->] | Hin].
        * left. by left.
        * right. by exists col', v'.
    - rewrite IH. split.
      + intros [Hacc | (col' & v' & Hin & ->)]; [by left|].
        right. exists col', v'. split; [by right | done].
      + intros [Hacc | (col' & v' & Hin & ->)]; [by left|].
        apply elem_of_cons in Hin as [[=] | Hin].
        right. by exists col', v'. }
  rewrite Hgen. split; [|by right]. intros [H|H]; [|done].
  by apply elem_of_empty in H.
Qed.

(** X15. [preprocess_connect_game] turns every row of the data frame into
    one transaction, in order, also a row without any value; the items of
    the transaction are the labels [column_value] of the cells of the row
    that are not null, the column [winner] left out. *)
Theorem preprocess_connect_game_items (data : DataFrame value)
    (Hwf : well_formed data) :
  length (preprocess_connect_game format data) = length (iterrows data)
  ∧ ∀ i row,
      iterrows data !! i = Some row →
      ∃ t, preprocess_connect_game format data !! i = Some t
           ∧ ∀ x, x ∈ t
                  ↔ ∃ col v, (col, Some v) ∈ row ∧ col ≠ "winner"
                             ∧ x = item_label format col v.
Proof.
  unfold preprocess_connect_game.
  destruct (decide ("winner" ∈ columns data)) as [Hin|Hnin].
  - simpl. split; [by rewrite !length_fmap|]. intros i row Hi.
    exists (row_to_transaction format
              (filter (λ cell, cell.1 ∉ ["winner"]) row)).
    split; [by rewrite !list_lookup_fmap, Hi|].
    intros x. rewrite elem_of_row_to_transaction. split.
    + intros (col & v & Hc & ->). apply list_elem_of_filter in Hc as [Hn Hc].
      exists col, v. split; [done|]. split; [|done].
      intros ->. apply Hn. simpl. by left.
    + intros (col & v & Hc & Hne & ->). exists col, v. split; [|done].
      apply list_elem_of_filter. split; [|done]. simpl.
      by intros ->%list_elem_of_singleton.
  - split; [by rewrite length_fmap|]. intros i row Hi.
    exists (row_to_transaction format row).
    split; [by rewrite list_lookup_fmap, Hi|].
    intros x. rewrite elem_of_row_to_transaction. split.
    + intros (col & v & Hc & ->). exists col, v. split; [done|].
      split; [|done]. intros ->. apply Hnin.
      unfold well_formed in Hwf. rewrite Forall_forall in Hwf.
      rewrite <- (Hwf row) by (apply list_elem_of_lookup; eauto).
      apply list_elem_of_fmap. by exists ("winner", Some v).
    + intros (col & v & Hc & _ & ->). by exists col, v.
Qed.

Lemma preprocess_items_unprefixed (rows : list (list (string * option value)))
    (t : gset string) (x : string) :
  (∀ row col cell, row ∈ rows → (col, cell) ∈ row →
                   startswith col "Transaction" = false) →
  t ∈ row_to_transaction format <$> rows → x ∈ t →
  startswith x "Transaction" = false.
Proof.
  intros Hcols (row & -> & Hrow)%list_elem_of_fmap
         (col & v & Hc & ->)%elem_of_row_to_transaction.
  apply item_label_unprefixed. by apply (Hcols row col (Some v)).
Qed.

Lemma seed_of_unprefixed (T : list (gset string)) :
  (∀ t x, t ∈ T → x ∈ t → startswith x "Transaction" = false) →
  seed_is_distinct_items T.
Proof.
  intros Hpre S. rewrite elem_of_seed. split.
  - intros (x & -> & Hx & _). by exists x.
  - intros (x & -> & t & Ht & Hx). exists x. split; [done|].
    split; [by exists t | by apply (Hpre t)].
Qed.

(** X16. When no column label starts with [Transaction], the prefix test
    of [lcofi] drops nothing: on the transactions that
    [preprocess_accident_data] or [preprocess_connect_game] build from a
    data frame, the seed of the search holds every item of every
    transaction. *)
Theorem preprocessed_seed_is_complete (data : DataFrame value)
    (Hwf : well_formed data)
    (Hcols : Forall (λ col, startswith col "Transaction" = false)
                    (columns data)) :
  seed_is_distinct_items (preprocess_accident_data format data)
  ∧ seed_is_distinct_items (preprocess_connect_game format data).
Proof.
  assert (Hrows : ∀ row col cell, row ∈ iterrows data → (col, cell) ∈ row →
                                  startswith col "Transaction" = false).
  { intros row col cell Hrow Hc. rewrite Forall_forall in Hcols.
    apply Hcols. unfold well_formed in Hwf. rewrite Forall_forall in Hwf.
    rewrite <- (Hwf row Hrow). apply list_elem_of_fmap. by exists (col, cell). }
  split; apply seed_of_unprefixed; intros t x Ht Hx.
  - by apply (preprocess_items_unprefixed (iterrows data) t x).
  - unfold preprocess_connect_game in Ht.
    destruct (decide ("winner" ∈ columns data)); simpl in Ht.
    + apply (preprocess_items_unprefixed _ t x) in Ht; [done| |done].
      intros row col cell (row' & -> & Hrow')%list_elem_of_fmap
             [_ Hc]%list_elem_of_filter.
      by apply (Hrows row' col cell).
    + by apply (preprocess_items_unprefixed (iterrows data) t x).
Qed.
End preprocessing_facts.

Lemma preprocess_connect_game_items_witness :
  well_formed {| columns := ["pos_01"; "winner"];
                 iterrows := [ [("pos_01", Some "1"); ("winner", Some "x")];
                               [("pos_01", None); ("winner", Some "o")] ] |}
  ∧ length (preprocess_connect_game id
              {| columns := ["pos_01"; "winner"];
                 iterrows := [ [("pos_01", Some "1"); ("winner", Some "x")];
                               [("pos_01", None); ("winner", Some "o")] ] |})
    = 2
  ∧ ∀ i row,
      [ [("pos_01", Some "1"); ("winner", Some "x")];
        [("pos_01", None); ("winner", Some "o")] ] !! i = Some row →
      ∃ t, preprocess_connect_game id
             {| columns := ["pos_01"; "winner"];
                iterrows := [ [("pos_01", Some "1"); ("winner", Some "x")];
                              [("pos_01", None); ("winner", Some "o")] ] |}
             !! i = Some t
           ∧ ∀ x, x ∈ t
                  ↔ ∃ col v, (col, Some v) ∈ row ∧ col ≠ "winner"
                             ∧ x = item_label id col v.
Proof.
  assert (Hwf : well_formed
                  {| columns := ["pos_01"; "winner"];
                     iterrows :=
                       [ [("pos_01", Some "1"); ("winner", Some "x")];
                         [("pos_01", None); ("winner", Some "o")] ] |}).
  { repeat constructor. }
  split; [exact Hwf|].
  exact (preprocess_connect_game_items id _ Hwf).
Defined.

Lemma preprocessed_seed_is_complete_witness :
  well_formed {| columns := ["pos_01"; "winner"];
                 iterrows := [ [("pos_01", Some "1"); ("winner", Some "x")];
                               [("pos_01", None); ("winner", Some "o")] ] |}
  ∧ Forall (λ col, startswith col "Transaction" = false) ["pos_01"; "winner"]
  ∧ seed_is_distinct_items
      (preprocess_accident_data id
         {| columns := ["pos_01"; "winner"];
            iterrows := [ [("pos_01", Some "1"); ("winner", Some "x")];
                          [("pos_01", None); ("winner", Some "o")] ] |})
  ∧ seed_is_distinct_items
      (preprocess_connect_game id
         {| columns := ["pos_01"; "winner"];
            iterrows := [ [("pos_01", Some "1"); ("winner", Some "x")];
                          [("pos_01", None); ("winner", Some "o")] ] |}).
Proof.
  assert (Hwf : well_formed
                  {| columns := ["pos_01"; "winner"];
                     iterrows :=
                       [ [("pos_01", Some "1"); ("winner", Some "x")];
                         [("pos_01", None); ("winner", Some "o")] ] |}).
  { repeat constructor. }
  assert (Hcols : Forall (λ col, startswith col "Transaction" = false)
                         ["pos_01"; "winner"]).
  { repeat constructor. }
  split; [exact Hwf|]. split; [exact Hcols|].
  exact (preprocessed_seed_is_complete id _ Hwf Hcols).
Defined.
